(** * PowerCache: a shallow embedding of the cache engine

    The Go package [cache] declares one implementation, [PowerCache]: three
    maps keyed by string (values, time stamps, weights), a handful of policy
    fields, and statistics counters, all guarded by one mutex.  This file
    embeds the methods of [PowerCache] as functions on an explicit state and
    proves (or refutes) properties of them.

    Modelling conventions.
    - The engine is modelled sequentially: every method runs to completion
      before the next one starts, which is what the mutex is for.
    - [time.Now()] is an input.  A method reads the clock once, as its
      argument [now]; the loader's running time is the [took] of its result.
    - Go's maps iterate in an unspecified order.  [CleanUp], which ranges
      over [c.values], takes the order as an argument, [order]; a method that
      may reach [CleanUp] takes [rng], the choice of an order for the map it
      will find, and the theorems quantify over every choice that enumerates
      the key set ([range_order], [ranges]).
    - [int], [int64] and [time.Duration] are [Z] with the wrap-around of
      64-bit two's complement written at each arithmetic operation.
    - [float64] is Rocq's primitive binary64 float.
    - A panic (calling a nil function value, integer division by zero) is
      [None]. *)

From Stdlib Require Import ZArith.
From Stdlib Require Import Floats.PrimFloat Numbers.Cyclic.Int63.Uint63.
From stdpp Require Import gmap strings list fin_maps.

Local Open Scope Z_scope.
Set Warnings "-clear-no-such-hyp".

(** ** 64-bit integers *)

Definition minInt64 : Z := - 2 ^ 63.
Definition maxInt64 : Z := 2 ^ 63 - 1.

(** Two's complement wrap-around of a 64-bit signed result. *)
Definition wrap64 (z : Z) : Z := (z + 2 ^ 63) mod 2 ^ 64 - 2 ^ 63.

Definition int64_range (z : Z) : Prop := minInt64 ≤ z ≤ maxInt64.

(** [x++] on an int64. *)
Definition incr64 (x : Z) : Z := wrap64 (x + 1).

(** ** float64 *)

(** The conversion [float64(x)] of an int64: round to nearest, ties to even.
    [of_uint63] does the rounding on the magnitude; [- 2^63] has no 63-bit
    magnitude and is a power of two. *)
Definition float64_of_int64 (z : Z) : float :=
  if z =? minInt64 then
    PrimFloat.opp (PrimFloat.mul PrimFloat.two (PrimFloat.of_uint63 (Uint63.of_Z (2 ^ 62))))
  else if z <? 0 then PrimFloat.opp (PrimFloat.of_uint63 (Uint63.of_Z (- z)))
  else PrimFloat.of_uint63 (Uint63.of_Z z).

Definition float64_half : float := PrimFloat.div PrimFloat.one PrimFloat.two.

(** ** time.Time and time.Duration *)

(** A [Duration] is an int64 count of nanoseconds. *)
Definition Duration : Type := Z.

(** A [Time] is an instant, counted in nanoseconds from Go's zero [Time]
    (the value a map lookup yields for a missing key). *)
Definition Time : Type := Z.

Definition emptyDuration : Duration := 0.
Definition zeroTime : Time := 0.

Definition Time_Add (t : Time) (d : Duration) : Time := t + d.
Definition Time_After (t u : Time) : bool := u <? t.
Definition Time_Before (t u : Time) : bool := t <? u.

(** [t.Sub(u)]: the difference, saturated to the range of [Duration]. *)
Definition Time_Sub (t u : Time) : Duration :=
  if t - u <? minInt64 then minInt64
  else if maxInt64 <? t - u then maxInt64
  else t - u.

(** ** Errors, results and loaders *)

Inductive error : Type :=
  | ErrNotPresent
  | ErrOther (msg : string).

Inductive result (V : Type) : Type :=
  | Ok (v : V)
  | Err (e : error).
Arguments Ok {V} v.
Arguments Err {V} e.

(** What one call of a [ValueLoader] does: it returns a value after some
    time, or it returns an error. *)
Inductive loaded (V : Type) : Type :=
  | Loaded (v : V) (took : Duration)
  | Failed (e : error).
Arguments Loaded {V} v took.
Arguments Failed {V} e.

Definition ValueLoader (V : Type) : Type := string → loaded V.

(** ** The state *)

Record PowerCache (V : Type) : Type := mkPowerCache {
  ValueLoaderField : option (ValueLoader V);
  ExpiresAfterAccessDuration : Duration;
  ExpiresAfterWriteDuration : Duration;
  PeriodicMaintenance : Duration;
  MaxKeys : Z;
  MaxWeight : Z;
  MaxSize : Z;
  DefaultValueWeight : Z;
  values : gmap string V;
  tstamp : gmap string Time;
  weight : gmap string Z;
  cacheSizeEst : Z;
  nextClean : Time;
  statLoadCount : Z;
  statLoadDur : Duration;
  statHits : Z;
  statReqs : Z;
  statEvictions : Z
}.
Arguments mkPowerCache {V}.
Arguments ValueLoaderField {V}.
Arguments ExpiresAfterAccessDuration {V}.
Arguments ExpiresAfterWriteDuration {V}.
Arguments PeriodicMaintenance {V}.
Arguments MaxKeys {V}.
Arguments MaxWeight {V}.
Arguments MaxSize {V}.
Arguments DefaultValueWeight {V}.
Arguments values {V}.
Arguments tstamp {V}.
Arguments weight {V}.
Arguments cacheSizeEst {V}.
Arguments nextClean {V}.
Arguments statLoadCount {V}.
Arguments statLoadDur {V}.
Arguments statHits {V}.
Arguments statReqs {V}.
Arguments statEvictions {V}.

(** The loop-carried locals of [CleanUp]: the candidate for removal. *)
Record candidate : Type := mkCandidate {
  aKey : string;
  aWeight : Z;
  aTstamp : Time
}.

Section Engine.
Context {V : Type}.
Implicit Types (c : PowerCache V) (key k : string) (now : Time).

(** *** Field updates *)

Definition set_maps (vs : gmap string V) (ts : gmap string Time)
    (ws : gmap string Z) c : PowerCache V :=
  mkPowerCache (ValueLoaderField c) (ExpiresAfterAccessDuration c)
    (ExpiresAfterWriteDuration c) (PeriodicMaintenance c) (MaxKeys c)
    (MaxWeight c) (MaxSize c) (DefaultValueWeight c)
    vs ts ws
    (cacheSizeEst c) (nextClean c) (statLoadCount c) (statLoadDur c)
    (statHits c) (statReqs c) (statEvictions c).

Definition set_values (vs : gmap string V) c : PowerCache V :=
  set_maps vs (tstamp c) (weight c) c.
Definition set_tstamp (ts : gmap string Time) c : PowerCache V :=
  set_maps (values c) ts (weight c) c.
Definition set_weight (ws : gmap string Z) c : PowerCache V :=
  set_maps (values c) (tstamp c) ws c.

Definition set_DefaultValueWeight (w : Z) c : PowerCache V :=
  mkPowerCache (ValueLoaderField c) (ExpiresAfterAccessDuration c)
    (ExpiresAfterWriteDuration c) (PeriodicMaintenance c) (MaxKeys c)
    (MaxWeight c) (MaxSize c) w
    (values c) (tstamp c) (weight c)
    (cacheSizeEst c) (nextClean c) (statLoadCount c) (statLoadDur c)
    (statHits c) (statReqs c) (statEvictions c).

Definition set_nextClean (t : Time) c : PowerCache V :=
  mkPowerCache (ValueLoaderField c) (ExpiresAfterAccessDuration c)
    (ExpiresAfterWriteDuration c) (PeriodicMaintenance c) (MaxKeys c)
    (MaxWeight c) (MaxSize c) (DefaultValueWeight c)
    (values c) (tstamp c) (weight c)
    (cacheSizeEst c) t (statLoadCount c) (statLoadDur c)
    (statHits c) (statReqs c) (statEvictions c).

(** The five statistics fields at once. *)
Definition set_stats (lc : Z) (ld : Duration) (hits reqs ev : Z) c
    : PowerCache V :=
  mkPowerCache (ValueLoaderField c) (ExpiresAfterAccessDuration c)
    (ExpiresAfterWriteDuration c) (PeriodicMaintenance c) (MaxKeys c)
    (MaxWeight c) (MaxSize c) (DefaultValueWeight c)
    (values c) (tstamp c) (weight c)
    (cacheSizeEst c) (nextClean c) lc ld hits reqs ev.

Definition set_statLoad (lc : Z) (ld : Duration) c : PowerCache V :=
  set_stats lc ld (statHits c) (statReqs c) (statEvictions c) c.
Definition set_statHits (n : Z) c : PowerCache V :=
  set_stats (statLoadCount c) (statLoadDur c) n (statReqs c) (statEvictions c) c.
Definition set_statReqs (n : Z) c : PowerCache V :=
  set_stats (statLoadCount c) (statLoadDur c) (statHits c) n (statEvictions c) c.
Definition set_statEvictions (n : Z) c : PowerCache V :=
  set_stats (statLoadCount c) (statLoadDur c) (statHits c) (statReqs c) n c.

(** *** Map reads the way Go does them *)

(** [len(c.values)]. *)
Definition Length c : Z := Z.of_nat (size (values c)).

(** [c.tstamp[k]] and [c.weight[k]] without the [ok]: the zero value for a
    missing key. *)
Definition tstamp_at c k : Time := default zeroTime (tstamp c !! k).
Definition weight_at c k : Z := default 0 (weight c !! k).

(** The three [delete]s that every removal path performs. *)
Definition delete_key k c : PowerCache V :=
  set_maps (delete k (values c)) (delete k (tstamp c)) (delete k (weight c)) c.

(** An enumeration of the keys of a map: what [range] may produce. *)
Definition range_order (m : gmap string V) (order : list string) : Prop :=
  order ≡ₚ (map_to_list m).*1.

(** A choice of iteration order for every map. *)
Definition ranges (rng : gmap string V → list string) : Prop :=
  ∀ m, range_order m (rng m).

(** One such choice. *)
Definition range_keys (m : gmap string V) : list string := (map_to_list m).*1.

(** *** Initialize and the constructors *)

Definition Initialize now c : PowerCache V :=
  let c := set_maps ∅ ∅ ∅ c in
  let c := if DefaultValueWeight c =? 0 then set_DefaultValueWeight 1 c else c in
  let c := if negb (PeriodicMaintenance c =? emptyDuration)
           then set_nextClean (Time_Add now (PeriodicMaintenance c)) c else c in
  set_stats 0 (statLoadDur c) 0 0 0 c.

(** [new(PowerCache)] followed by the assignment of the three policy fields
    the constructors set. *)
Definition new_PowerCache (access write periodic : Duration) (maxKeys : Z)
    : PowerCache V :=
  mkPowerCache None access write periodic maxKeys 0 0 0 ∅ ∅ ∅ 0 zeroTime 0 0 0 0 0.

Definition minute : Duration := 60 * 1000000000.

Definition NewExpiresAfterAccessCache now (accessDuration : Duration) : PowerCache V :=
  Initialize now (new_PowerCache accessDuration 0 (minute * 5) 0).
Definition NewExpiresAfterWriteCache now (writeDuration : Duration) : PowerCache V :=
  Initialize now (new_PowerCache 0 writeDuration (minute * 5) 0).
Definition NewMaxKeysCache now (maxKeys : Z) : PowerCache V :=
  Initialize now (new_PowerCache 0 0 0 maxKeys).
Definition NewPowerCache now : PowerCache V :=
  Initialize now (new_PowerCache 0 0 0 0).

(** *** Invalidate, InvalidateAll *)

Definition Invalidate key c : PowerCache V :=
  let c := delete_key key c in
  set_statEvictions (incr64 (statEvictions c)) c.

Definition InvalidateAll c : PowerCache V :=
  let c := set_statEvictions (wrap64 (statEvictions c + Length c)) c in
  set_maps ∅ ∅ ∅ c.

(** *** CleanUp *)

(** Lines 237-243: the two weights relative to the larger one. *)
Definition weightFactors (a : candidate) (wk : Z) : float * float :=
  let mWeight := if aWeight a <? wk then wk else aWeight a in
  (PrimFloat.div (float64_of_int64 (aWeight a)) (float64_of_int64 mWeight),
   PrimFloat.div (float64_of_int64 wk) (float64_of_int64 mWeight)).

(** Lines 251-256: time left until the stamp, relative to the later stamp. *)
Definition remainingFactors now (a : candidate) (tk : Time) : float * float :=
  let mTstamp := if Time_Before (aTstamp a) tk then tk else aTstamp a in
  (PrimFloat.div (float64_of_int64 (Time_Sub (aTstamp a) now))
                 (float64_of_int64 (Time_Sub mTstamp now)),
   PrimFloat.div (float64_of_int64 (Time_Sub tk now))
                 (float64_of_int64 (Time_Sub mTstamp now))).

(** Lines 262-272: time since the stamp, relative to the longer one, then
    the multiplicative inverse of each. *)
Definition elapsedFactors now (a : candidate) (tk : Time) : float * float :=
  let ad := Time_Sub now (aTstamp a) in
  let bd := Time_Sub now tk in
  let md := if ad <? bd then bd else ad in
  let adf := PrimFloat.div (float64_of_int64 ad) (float64_of_int64 md) in
  let bdf := PrimFloat.div (float64_of_int64 bd) (float64_of_int64 md) in
  (PrimFloat.div PrimFloat.one adf, PrimFloat.div PrimFloat.one bdf).

(** Line 249: the condition that selects between the two. *)
Definition ageByRemaining c : bool :=
  negb (ExpiresAfterAccessDuration c =? emptyDuration)
  || negb (ExpiresAfterAccessDuration c =? emptyDuration).

Definition ageFactors now c (a : candidate) (tk : Time) : float * float :=
  if ageByRemaining c then remainingFactors now a tk else elapsedFactors now a tk.

(** Lines 277-280: [bscore < ascore], the test under which [k] replaces the
    candidate. *)
Definition replaces now c (a : candidate) k : bool :=
  let '(awf, bwf) := weightFactors a (weight_at c k) in
  let '(adf, bdf) := ageFactors now c a (tstamp_at c k) in
  let ascore := PrimFloat.add (PrimFloat.mul awf float64_half)
                              (PrimFloat.mul adf float64_half) in
  let bscore := PrimFloat.add (PrimFloat.mul bwf float64_half)
                              (PrimFloat.mul bdf float64_half) in
  PrimFloat.ltb bscore ascore.

Definition candidate_of c k : candidate :=
  mkCandidate k (weight_at c k) (tstamp_at c k).

Definition no_candidate : candidate := mkCandidate "" 0 zeroTime.

(** Lines 214-217: a time policy is configured and the stamp of [k] is
    before now. *)
Definition timePolicy c : bool :=
  negb (ExpiresAfterWriteDuration c =? emptyDuration)
  || negb (ExpiresAfterAccessDuration c =? emptyDuration).

Definition sweepExpired now c k : bool :=
  timePolicy c && Time_Before (tstamp_at c k) now.

(** Line 222: the sweep stops at the first expired key. *)
Definition bounded c : bool :=
  negb (MaxSize c =? 0) || negb (MaxKeys c =? 0).

(** The [for k := range c.values] loop, lines 213-285. *)
Fixpoint CleanUp_loop now (order : list string) c (a : candidate)
    : PowerCache V * candidate :=
  match order with
  | [] => (c, a)
  | k :: rest =>
      if sweepExpired now c k then
        let c := delete_key k c in
        let c := set_statEvictions (incr64 (statEvictions c)) c in
        if bounded c then (c, a) else CleanUp_loop now rest c a
      else if decide (aKey a = "") then
        CleanUp_loop now rest c (candidate_of c k)
      else if replaces now c a k then
        CleanUp_loop now rest c (candidate_of c k)
      else CleanUp_loop now rest c a
  end.

Definition CleanUp now (order : list string) c : PowerCache V :=
  let '(c, a) := CleanUp_loop now order c no_candidate in
  let c := delete_key (aKey a) c in
  let c := set_statEvictions (incr64 (statEvictions c)) c in
  if negb (PeriodicMaintenance c =? emptyDuration)
  then set_nextClean (Time_Add now (PeriodicMaintenance c)) c
  else c.

(** *** The maintenance trigger *)

(** Lines 61-65: the periodic condition. *)
Definition periodicDue now c : bool :=
  negb (PeriodicMaintenance c =? emptyDuration) && Time_After (nextClean c) now.

Definition shouldClean now c : bool :=
  periodicDue now c
  || (negb (MaxKeys c =? 0) && (MaxKeys c <=? Length c))
  || (negb (MaxSize c =? 0) && (MaxSize c <=? cacheSizeEst c)).

Definition cleanUpIfNeccissary now (rng : gmap string V → list string) c
    : PowerCache V :=
  if shouldClean now c then CleanUp now (rng (values c)) c else c.

(** *** Put *)

(** Lines 83-96: the part of [Put] that runs under the lock, after the
    maintenance trigger.  The three [if]s of lines 86-94 are independent
    statements, run one after the other. *)
Definition Put_locked now key (value : V) c : PowerCache V :=
  let c := set_values (<[key := value]> (values c)) c in
  let c := if (ExpiresAfterWriteDuration c =? emptyDuration)
              && (ExpiresAfterAccessDuration c =? emptyDuration)
           then set_tstamp (<[key := now]> (tstamp c)) c else c in
  let c := if negb (ExpiresAfterWriteDuration c =? emptyDuration)
           then set_tstamp (<[key := Time_Add now (ExpiresAfterWriteDuration c)]> (tstamp c)) c
           else c in
  let c := if negb (ExpiresAfterAccessDuration c =? emptyDuration)
           then set_tstamp (<[key := Time_Add now (ExpiresAfterAccessDuration c)]> (tstamp c)) c
           else c in
  set_weight (<[key := DefaultValueWeight c]> (weight c)) c.

Definition Put now (rng : gmap string V → list string) key (value : V) c
    : PowerCache V :=
  Put_locked now key value (cleanUpIfNeccissary now rng c).

(** *** The read path *)

Definition isKeyExpired now key c : bool :=
  if negb (ExpiresAfterAccessDuration c =? emptyDuration)
     && match tstamp c !! key with
        | Some a => Time_After now (Time_Add a (ExpiresAfterAccessDuration c))
        | None => false
        end
  then true
  else if negb (ExpiresAfterWriteDuration c =? emptyDuration)
     && match tstamp c !! key with
        | Some w => Time_After now (Time_Add w (ExpiresAfterWriteDuration c))
        | None => false
        end
  then true
  else false.

Definition GetIfPresent now key c : PowerCache V * result V :=
  let c := if isKeyExpired now key c then Invalidate key c else c in
  let c := set_statReqs (incr64 (statReqs c)) c in
  match values c !! key with
  | Some v =>
      let c :=
        if (ExpiresAfterWriteDuration c =? emptyDuration)
           && (ExpiresAfterAccessDuration c =? emptyDuration)
        then set_tstamp (<[key := now]> (tstamp c)) c
        else if negb (ExpiresAfterAccessDuration c =? emptyDuration)
        then set_tstamp (<[key := Time_Add now (ExpiresAfterAccessDuration c)]> (tstamp c)) c
        else c in
      (set_statHits (incr64 (statHits c)) c, Ok v)
  | None => (c, Err ErrNotPresent)
  end.

(** [loadWithValueLoader]: [None] when the function value is nil or the
    division at line 110 is by zero. *)
Definition loadWithValueLoader now (rng : gmap string V → list string) key
    (valueLoader : option (ValueLoader V)) c : option (PowerCache V * result V) :=
  match valueLoader with
  | None => None
  | Some f =>
      match f key with
      | Failed e => Some (c, Err e)
      | Loaded value loaddur =>
          let n := incr64 (statLoadCount c) in
          if n =? 0 then None
          else
            let c := set_statLoad n (wrap64 (Z.quot (wrap64 (statLoadDur c + loaddur)) n)) c in
            Some (Put (Time_Add now loaddur) rng key value c, Ok value)
      end
  end.

Definition GetWithValueLoader now (rng : gmap string V → list string) key
    (valueLoader : option (ValueLoader V)) c : option (PowerCache V * result V) :=
  match GetIfPresent now key c with
  | (c, Ok v) => Some (c, Ok v)
  | (c, Err _) => loadWithValueLoader now rng key valueLoader c
  end.

Definition Get now (rng : gmap string V → list string) key c
    : option (PowerCache V * result V) :=
  GetWithValueLoader now rng key (ValueLoaderField c) c.

Definition Load now (rng : gmap string V → list string) key c
    : option (PowerCache V * result V) :=
  GetWithValueLoader now rng key (ValueLoaderField c) c.

Definition Refresh now (rng : gmap string V → list string) key c
    : option (PowerCache V) :=
  fst <$> loadWithValueLoader now rng key (ValueLoaderField c) c.

(** *** The per-key overrides *)

Definition SetExpiresAt key (expires : Time) c : PowerCache V :=
  set_tstamp (<[key := expires]> (tstamp c)) c.

Definition SetExpiresIn now key (expiresIn : Duration) c : PowerCache V :=
  set_tstamp (<[key := Time_Add now expiresIn]> (tstamp c)) c.

Definition SetWeight key (w : Z) c : PowerCache V :=
  set_weight (<[key := w]> (weight c)) c.

Definition EvictionCount c : Z := statEvictions c.

End Engine.

(** The fields that the maintenance pass never writes. *)
Definition untouched {V : Type} (c : PowerCache V)
    : option (ValueLoader V) * Z * Z * Z * Z * Duration * Z * Z :=
  (ValueLoaderField c, DefaultValueWeight c, MaxWeight c, cacheSizeEst c,
   statLoadCount c, statLoadDur c, statHits c, statReqs c).

(** ** The statistics accessors *)

Definition HitRate {V : Type} (c : PowerCache V) : float :=
  if statReqs c =? 0 then PrimFloat.zero
  else PrimFloat.div (float64_of_int64 (statHits c)) (float64_of_int64 (statReqs c)).

Definition AverageLoadPenalty {V : Type} (c : PowerCache V) : Duration :=
  statLoadDur c.

(** ** Calls of the public methods *)

(** The methods of the interfaces [Cache], [LoadingCache], [ExpiringCache]
    and [PriorityCache].  [Initialize] is the construction of the engine and
    the statistics accessors change nothing; neither is listed. *)
Inductive op (V : Type) : Type :=
  | OpPut (key : string) (value : V)
  | OpGetIfPresent (key : string)
  | OpGetWithValueLoader (key : string) (valueLoader : option (ValueLoader V))
  | OpGet (key : string)
  | OpLoad (key : string)
  | OpRefresh (key : string)
  | OpInvalidate (key : string)
  | OpInvalidateAll
  | OpCleanUp
  | OpSetExpiresAt (key : string) (expires : Time)
  | OpSetExpiresIn (key : string) (expiresIn : Duration)
  | OpSetWeight (key : string) (w : Z).
Arguments OpPut {V} key value.
Arguments OpGetIfPresent {V} key.
Arguments OpGetWithValueLoader {V} key valueLoader.
Arguments OpGet {V} key.
Arguments OpLoad {V} key.
Arguments OpRefresh {V} key.
Arguments OpInvalidate {V} key.
Arguments OpInvalidateAll {V}.
Arguments OpCleanUp {V}.
Arguments OpSetExpiresAt {V} key expires.
Arguments OpSetExpiresIn {V} key expiresIn.
Arguments OpSetWeight {V} key w.

(** The state a call leaves; [None] when it panics. *)
Definition exec {V : Type} (now : Time) (rng : gmap string V → list string)
    (o : op V) (c : PowerCache V) : option (PowerCache V) :=
  match o with
  | OpPut key value => Some (Put now rng key value c)
  | OpGetIfPresent key => Some (fst (GetIfPresent now key c))
  | OpGetWithValueLoader key vl => fst <$> GetWithValueLoader now rng key vl c
  | OpGet key => fst <$> Get now rng key c
  | OpLoad key => fst <$> Load now rng key c
  | OpRefresh key => Refresh now rng key c
  | OpInvalidate key => Some (Invalidate key c)
  | OpInvalidateAll => Some (InvalidateAll c)
  | OpCleanUp => Some (CleanUp now (rng (values c)) c)
  | OpSetExpiresAt key expires => Some (SetExpiresAt key expires c)
  | OpSetExpiresIn key expiresIn => Some (SetExpiresIn now key expiresIn c)
  | OpSetWeight key w => Some (SetWeight key w c)
  end.

(** The three maps have the same key set. *)
Definition same_keys {V : Type} (c : PowerCache V) : Prop :=
  dom (tstamp c) = dom (values c) ∧ dom (weight c) = dom (values c).

(** A per-key override aimed at a key that has no value. *)
Definition override_of_absent {V : Type} (o : op V) (c : PowerCache V) : Prop :=
  match o with
  | OpSetExpiresAt key _ | OpSetExpiresIn key _ | OpSetWeight key _ =>
      values c !! key = None
  | _ => False
  end.

(** A sequence of calls: per call the clock, the iteration order and the
    method with its arguments.  The run stops at the first panic. *)
Record call (V : Type) : Type := mkCall {
  call_now : Time;
  call_rng : gmap string V → list string;
  call_op : op V
}.
Arguments mkCall {V}.
Arguments call_now {V}.
Arguments call_rng {V}.
Arguments call_op {V}.

Definition exec_call {V : Type} (x : call V) (c : PowerCache V)
    : option (PowerCache V) :=
  exec (call_now x) (call_rng x) (call_op x) c.

Fixpoint run {V : Type} (cs : list (call V)) (c : PowerCache V)
    : option (PowerCache V) :=
  match cs with
  | [] => Some c
  | x :: cs =>
      match exec_call x c with
      | Some c => run cs c
      | None => None
      end
  end.

(** No call of the run is an override of a key that has no value when the
    call is made. *)
Fixpoint no_override_of_absent {V : Type} (cs : list (call V)) (c : PowerCache V)
    : Prop :=
  match cs with
  | [] => True
  | x :: cs =>
      ¬ override_of_absent (call_op x) c
      ∧ ∀ c1, exec_call x c = Some c1 → no_override_of_absent cs c1
  end.

(** Every stored weight is the default weight. *)
Definition default_weights {V : Type} (c : PowerCache V) : Prop :=
  ∀ k w, weight c !! k = Some w → w = DefaultValueWeight c.

Definition sets_weight {V : Type} (o : op V) : Prop :=
  match o with
  | OpSetWeight _ _ => True
  | _ => False
  end.

(** The keys of [c] that [c'] no longer has. *)
Definition removed {V : Type} (c c' : PowerCache V) : Z :=
  Z.of_nat (size (dom (values c) ∖ dom (values c'))).

(** A sequence of [Put]s: per call the clock, the iteration order, the key
    and the value. *)
Record put_call (V : Type) : Type := mkPut {
  put_now : Time;
  put_rng : gmap string V → list string;
  put_key : string;
  put_value : V
}.
Arguments mkPut {V}.
Arguments put_now {V}.
Arguments put_rng {V}.
Arguments put_key {V}.
Arguments put_value {V}.

Definition run_put {V : Type} (c : PowerCache V) (p : put_call V) : PowerCache V :=
  Put (put_now p) (put_rng p) (put_key p) (put_value p) c.

Definition run_puts {V : Type} (ps : list (put_call V)) (c : PowerCache V)
    : PowerCache V :=
  foldl run_put c ps.

(** The policy fields that the maintenance code reads. *)
Definition policy {V : Type} (c : PowerCache V)
    : Duration * Duration * Duration * Z * Z :=
  (ExpiresAfterAccessDuration c, ExpiresAfterWriteDuration c,
   PeriodicMaintenance c, MaxKeys c, MaxSize c).

(** The configuration [NewMaxKeysCache] sets up: a key-count bound and
    nothing else. *)
Definition keys_only {V : Type} (N : Z) (c : PowerCache V) : Prop := policy c = (0, 0, 0, N, 0).

(** From [c] to [c'] the counter did not go down, and it went up by at least
    the number of keys that disappeared. *)
Definition accounted {V : Type} (c c' : PowerCache V) : Prop :=
  statEvictions c ≤ statEvictions c'
  ∧ removed c c' ≤ statEvictions c' - statEvictions c.

(** ** Concrete caches, with strings for values *)

Definition millisecond : Duration := 1000000.

(** The instant at which the concrete engines below are made, an instant of
    the year 2025 in nanoseconds from the zero [Time], and the instant [d]
    nanoseconds later. *)
Definition start : Time := 63900000000 * 1000000000.
Definition after (d : Duration) : Time := Time_Add start d.

(** [c := new(PowerCache)], the policy fields assigned, [c.Initialize()]:
    what the constructors do. *)
Definition cache_of (access write periodic : Duration) (maxKeys : Z)
    : PowerCache string :=
  Initialize start (new_PowerCache access write periodic maxKeys).

Definition put (now : Time) (key value : string) (c : PowerCache string)
    : PowerCache string :=
  Put now range_keys key value c.

(** The test [TestMaxKeys]: six keys into a cache of five. *)
Definition scenario_puts : list (put_call string) :=
  [mkPut (after 10) range_keys "a" "a"; mkPut (after 20) range_keys "b" "b";
   mkPut (after 30) range_keys "c" "c"; mkPut (after 40) range_keys "e" "e";
   mkPut (after 50) range_keys "f" "f"; mkPut (after 60) range_keys "g" "g"].

(** A write-expiry cache of 5 ms with one key, written as soon as the cache
    is made. *)
Definition write5ms : PowerCache string :=
  put start "k" "v" (NewExpiresAfterWriteCache start (5 * millisecond)).

(** Two live keys under an expiry of 100 ns, a written after 10 ns and b
    after 50 ns, under write-expiry and under access-expiry. *)
Definition two_live_write : PowerCache string :=
  put (after 50) "b" "b" (put (after 10) "a" "a" (cache_of 0 100 0 0)).
Definition two_live_access : PowerCache string :=
  put (after 50) "b" "b" (put (after 10) "a" "a" (cache_of 100 0 0 0)).

(** A write-expiry cache of 100 ns bounded to 5 keys: b written at the
    start, a after 50 ns. *)
Definition one_expired : PowerCache string :=
  put (after 50) "a" "a" (put start "b" "b" (cache_of 0 100 0 5)).

(** Both expiry durations configured. *)
Definition both_expiries : PowerCache string := cache_of 3 10 0 0.

(** A write-expiry cache of 5 ns with one key, written at the start. *)
Definition stale : PowerCache string := put start "k" "v" (cache_of 0 5 0 0).

Definition failing : ValueLoader string := λ _, Failed (ErrOther "boom").

Definition fresh : PowerCache string := NewPowerCache start.

(** A loader that takes 3 ns, and an engine that has it as its
    [ValueLoader]. *)
Definition loader3 : ValueLoader string := λ _, Loaded "v" 3.

Definition loading : PowerCache string :=
  Initialize start
    (mkPowerCache (Some loader3) 0 0 0 0 0 0 0 ∅ ∅ ∅ 0 zeroTime 0 0 0 0 0).

(** * Properties *)

(** ** Arithmetic of the counters *)

Lemma wrap64_id (z : Z) : int64_range z → wrap64 z = z.
Proof.
  unfold int64_range, wrap64, minInt64, maxInt64. intros Hz.
  rewrite Z.mod_small; lia.
Qed.

Lemma incr64_succ (x : Z) : minInt64 ≤ x → x < maxInt64 → incr64 x = x + 1.
Proof.
  intros Hlo Hhi. unfold incr64. apply wrap64_id.
  unfold int64_range, minInt64, maxInt64 in *. lia.
Qed.

(** Projections through the field updates. *)
Ltac pc_simpl :=
  cbn [ValueLoaderField ExpiresAfterAccessDuration ExpiresAfterWriteDuration
       PeriodicMaintenance MaxKeys MaxWeight MaxSize DefaultValueWeight
       values tstamp weight cacheSizeEst nextClean
       statLoadCount statLoadDur statHits statReqs statEvictions
       set_maps set_values set_tstamp set_weight set_DefaultValueWeight
       set_nextClean set_stats set_statLoad set_statHits set_statReqs
       set_statEvictions delete_key fst snd negb andb orb] in *.

Section Facts.
Context {V : Type}.
Implicit Types (c : PowerCache V) (key k : string) (now : Time)
  (rng : gmap string V → list string) (a : candidate).

(** ** Enumerations of the key set *)

Lemma range_order_dom (m : gmap string V) order k :
  range_order m order → (k ∈ order ↔ is_Some (m !! k)).
Proof.
  unfold range_order. intros Hp. rewrite Hp, list_elem_of_fmap. split.
  - intros [[k' v] [-> Hin]]. apply elem_of_map_to_list in Hin. by exists v.
  - intros [v Hv]. exists (k, v). split; [done|]. by apply elem_of_map_to_list.
Qed.

Lemma range_order_length (m : gmap string V) order :
  range_order m order → length order = size m.
Proof.
  unfold range_order. intros Hp.
  by rewrite Hp, length_fmap, length_map_to_list.
Qed.

Lemma range_order_empty (order : list string) :
  range_order (∅ : gmap string V) order → order = [].
Proof.
  unfold range_order. rewrite map_to_list_empty. simpl.
  intros Hp. by apply Permutation_nil_r.
Qed.

Lemma ranges_range_keys : ranges (range_keys (V := V)).
Proof. intros m. unfold range_order, range_keys. done. Qed.

(** ** The loop of CleanUp *)

Lemma CleanUp_loop_policy now order c a :
  policy (CleanUp_loop now order c a).1 = policy c.
Proof.
  revert c a. induction order as [|k rest IH]; intros c a; simpl; [done|].
  destruct (sweepExpired now c k).
  - destruct (bounded _); [done|]. by rewrite IH.
  - destruct (decide _); [by rewrite IH|]. destruct (replaces _ _ _ _); by rewrite IH.
Qed.

Lemma CleanUp_policy now order c : policy (CleanUp now order c) = policy c.
Proof.
  unfold CleanUp. pose proof (CleanUp_loop_policy now order c no_candidate) as H.
  destruct (CleanUp_loop _ _ _ _) as [c1 a1]. simpl in H. rewrite <- H.
  by destruct (negb _).
Qed.

(** Every key the loop deletes goes from the three maps at once. *)
Lemma CleanUp_loop_same_keys now order c a :
  same_keys c → same_keys (CleanUp_loop now order c a).1.
Proof.
  revert c a. induction order as [|k rest IH]; intros c a Hc; simpl; [done|].
  assert (same_keys (set_statEvictions (incr64 (statEvictions (delete_key k c)))
                       (delete_key k c))) as Hd.
  { destruct Hc as [Ht Hw]. split; pc_simpl; rewrite !dom_delete_L; congruence. }
  destruct (sweepExpired now c k).
  - destruct (bounded _); [done|]. by apply IH.
  - destruct (decide _); [by apply IH|]. destruct (replaces _ _ _ _); by apply IH.
Qed.

(** Without a time policy the loop removes nothing; it only selects. *)
Lemma CleanUp_loop_no_timePolicy now order c a :
  timePolicy c = false →
  (CleanUp_loop now order c a).1 = c
  ∧ (aKey (CleanUp_loop now order c a).2 = aKey a
     ∨ aKey (CleanUp_loop now order c a).2 ∈ order).
Proof.
  intros Hp. revert a. induction order as [|k rest IH]; intros a; simpl; [auto|].
  unfold sweepExpired. rewrite Hp. simpl.
  destruct (decide _).
  - destruct (IH (candidate_of c k)) as [-> [Hk|Hk]]; split; try done; right.
    + rewrite Hk. simpl. by left.
    + by right.
  - destruct (replaces _ _ _ _).
    + destruct (IH (candidate_of c k)) as [-> [Hk|Hk]]; split; try done; right.
      * rewrite Hk. simpl. by left.
      * by right.
    + destruct (IH a) as [-> [Hk|Hk]]; split; try done; auto. right. by right.
Qed.

(** From no candidate, over a non-empty enumeration, the loop ends on one of
    the enumerated keys. *)
Lemma CleanUp_loop_selects now order c :
  timePolicy c = false → order ≠ [] →
  aKey (CleanUp_loop now order c no_candidate).2 ∈ order.
Proof.
  intros Hp Hne. destruct order as [|k rest]; [done|]. simpl.
  unfold sweepExpired. rewrite Hp. simpl.
  destruct (CleanUp_loop_no_timePolicy now rest c (candidate_of c k) Hp) as [_ [Hk|Hk]].
  - rewrite Hk. simpl. by left.
  - by right.
Qed.

(** ** CleanUp without a time policy: one victim *)

Lemma CleanUp_no_timePolicy now order c :
  timePolicy c = false → range_order (values c) order →
  ∃ victim,
    values (CleanUp now order c) = delete victim (values c)
    ∧ tstamp (CleanUp now order c) = delete victim (tstamp c)
    ∧ weight (CleanUp now order c) = delete victim (weight c)
    ∧ statEvictions (CleanUp now order c) = incr64 (statEvictions c)
    ∧ (values c ≠ ∅ → is_Some (values c !! victim)).
Proof.
  intros Hp Hr. unfold CleanUp.
  pose proof (CleanUp_loop_no_timePolicy now order c no_candidate Hp) as [Hc _].
  pose proof (CleanUp_loop_selects now order c Hp) as Hsel.
  destruct (CleanUp_loop _ _ _ _) as [c1 a1]. simpl in *. subst c1.
  exists (aKey a1). repeat split; try (by destruct (negb _)).
  intros Hne. apply (range_order_dom _ order); [done|]. apply Hsel.
  intros ->. apply Hne. apply map_size_empty_inv.
  by rewrite <- (range_order_length _ _ Hr).
Qed.

Lemma Length_dom c : Length c = Z.of_nat (size (dom (values c))).
Proof. unfold Length. by rewrite size_dom. Qed.

Lemma Length_nonneg c : 0 ≤ Length c.
Proof. unfold Length. lia. Qed.

Lemma Length_CleanUp_no_timePolicy now order c :
  timePolicy c = false → range_order (values c) order → 0 < Length c →
  Length (CleanUp now order c) = Length c - 1.
Proof.
  intros Hp Hr Hpos.
  destruct (CleanUp_no_timePolicy now order c Hp Hr) as (v & Hv & _ & _ & _ & Hin).
  unfold Length in *. rewrite Hv.
  rewrite map_size_delete_Some.
  - lia.
  - apply Hin. intros He. rewrite He, map_size_empty in Hpos. lia.
Qed.

(** ** Put *)

Lemma values_Put_locked now key (value : V) c :
  values (Put_locked now key value c) = <[key := value]> (values c).
Proof. unfold Put_locked. by repeat (case_match; pc_simpl). Qed.

Lemma weight_Put_locked now key (value : V) c :
  weight (Put_locked now key value c) = <[key := DefaultValueWeight c]> (weight c).
Proof. unfold Put_locked. by repeat (case_match; pc_simpl). Qed.

Lemma policy_Put_locked now key (value : V) c : policy (Put_locked now key value c) = policy c.
Proof. unfold Put_locked, policy. by repeat (case_match; pc_simpl). Qed.

Lemma statEvictions_Put_locked now key (value : V) c :
  statEvictions (Put_locked now key value c) = statEvictions c.
Proof. unfold Put_locked. by repeat (case_match; pc_simpl). Qed.

Lemma Length_Put_locked now key (value : V) c :
  Length c ≤ Length (Put_locked now key value c) ≤ Length c + 1.
Proof.
  unfold Length. rewrite values_Put_locked.
  rewrite map_size_insert. destruct (values c !! key); simpl; lia.
Qed.

Lemma policy_Put now rng key (value : V) c :
  policy (Put now rng key value c) = policy c.
Proof.
  unfold Put, cleanUpIfNeccissary. rewrite policy_Put_locked.
  destruct (shouldClean now c); [apply CleanUp_policy|done].
Qed.

Lemma keys_only_timePolicy N c : keys_only N c → timePolicy c = false.
Proof. unfold keys_only, policy, timePolicy. by intros [= -> -> _ _ _]. Qed.

Lemma keys_only_shouldClean N now c :
  keys_only N c → 0 < N → shouldClean now c = (N <=? Length c).
Proof.
  unfold keys_only, policy, shouldClean, periodicDue. intros [= _ _ -> -> ->] HN.
  simpl. rewrite orb_false_r. destruct (N =? 0) eqn:E; [lia|done].
Qed.

Lemma keys_only_NewMaxKeysCache now N :
  keys_only N (NewMaxKeysCache now N : PowerCache V).
Proof. unfold NewMaxKeysCache, Initialize, new_PowerCache, keys_only, policy. done. Qed.

Lemma keys_only_Put N now rng key (value : V) c :
  keys_only N c → keys_only N (Put now rng key value c).
Proof. unfold keys_only. by rewrite policy_Put. Qed.

(** Below the bound [Put] only writes. *)
Lemma Put_below N now rng key (value : V) c :
  keys_only N c → 0 < N → Length c < N →
  Put now rng key value c = Put_locked now key value c.
Proof.
  intros Hk HN Hlt. unfold Put, cleanUpIfNeccissary.
  rewrite (keys_only_shouldClean N) by done.
  destruct (N <=? Length c) eqn:E; [lia|done].
Qed.

(** At the bound [Put] first evicts one key of the cache. *)
Lemma Put_at N now rng key (value : V) c :
  keys_only N c → 0 < N → N ≤ Length c → ranges rng →
  ∃ victim, victim ∈ dom (values c)
    ∧ dom (values (Put now rng key value c)) = {[key]} ∪ (dom (values c) ∖ {[victim]})
    ∧ statEvictions (Put now rng key value c) = incr64 (statEvictions c).
Proof.
  intros Hk HN Hle Hr. unfold Put, cleanUpIfNeccissary.
  rewrite (keys_only_shouldClean N) by done.
  destruct (N <=? Length c) eqn:E; [|lia].
  destruct (CleanUp_no_timePolicy now (rng (values c)) c
              (keys_only_timePolicy N c Hk) (Hr _)) as (v & Hv & _ & _ & He & Hin).
  exists v. rewrite values_Put_locked, statEvictions_Put_locked, dom_insert_L, Hv, dom_delete_L.
  repeat split; [|done]. apply elem_of_dom, Hin.
  intros Hem. unfold Length in Hle. rewrite Hem, map_size_empty in Hle. lia.
Qed.

Lemma Length_Put_keys_only N now rng key (value : V) c :
  keys_only N c → 0 < N → ranges rng → Length c ≤ N →
  Length (Put now rng key value c) ≤ N.
Proof.
  intros Hk HN Hr Hle. destruct (decide (Length c < N)) as [Hlt|Hge].
  - rewrite (Put_below N) by done.
    pose proof (Length_Put_locked now key value c). lia.
  - unfold Put, cleanUpIfNeccissary. rewrite (keys_only_shouldClean N) by done.
    destruct (N <=? Length c) eqn:E; [|lia].
    pose proof (Length_CleanUp_no_timePolicy now (rng (values c)) c
                  (keys_only_timePolicy N c Hk) (Hr _)) as Hl.
    pose proof (Length_Put_locked now key value (CleanUp now (rng (values c)) c)). lia.
Qed.

Lemma run_puts_keys_only N (ps : list (put_call V)) c :
  keys_only N c → 0 < N → (∀ p, p ∈ ps → ranges (put_rng p)) → Length c ≤ N →
  keys_only N (run_puts ps c) ∧ Length (run_puts ps c) ≤ N.
Proof.
  intros Hk HN. revert c Hk. unfold run_puts.
  induction ps as [|p ps IH]; intros c Hk Hr Hle; simpl; [done|].
  apply IH.
  - by apply keys_only_Put.
  - intros q Hq. apply Hr. by right.
  - apply (Length_Put_keys_only N); [done..| |done]. apply Hr. by left.
Qed.

Lemma Put_below_dom N now rng key (value : V) c :
  keys_only N c → 0 < N → Length c < N →
  dom (values (Put now rng key value c)) = {[key]} ∪ dom (values c)
  ∧ statEvictions (Put now rng key value c) = statEvictions c.
Proof.
  intros Hk HN Hlt. rewrite (Put_below N) by done.
  by rewrite values_Put_locked, statEvictions_Put_locked, dom_insert_L.
Qed.

(** ** The stamp Put leaves *)

Lemma tstamp_Put_locked_lookup now key (value : V) c :
  tstamp (Put_locked now key value c) !! key =
  Some (if negb (ExpiresAfterAccessDuration c =? emptyDuration)
        then Time_Add now (ExpiresAfterAccessDuration c)
        else if negb (ExpiresAfterWriteDuration c =? emptyDuration)
        then Time_Add now (ExpiresAfterWriteDuration c)
        else now).
Proof.
  destruct (ExpiresAfterWriteDuration c =? emptyDuration) eqn:Ew;
    destruct (ExpiresAfterAccessDuration c =? emptyDuration) eqn:Ea;
    unfold Put_locked; repeat (pc_simpl; rewrite ?Ew, ?Ea);
    by rewrite lookup_insert_eq.
Qed.

Lemma dom_tstamp_Put_locked now key (value : V) c :
  dom (tstamp (Put_locked now key value c)) = {[key]} ∪ dom (tstamp c).
Proof.
  destruct (ExpiresAfterWriteDuration c =? emptyDuration) eqn:Ew;
    destruct (ExpiresAfterAccessDuration c =? emptyDuration) eqn:Ea;
    unfold Put_locked; repeat (pc_simpl; rewrite ?Ew, ?Ea);
    rewrite ?dom_insert_L; set_solver.
Qed.

(** ** The key sets of the three maps *)

Lemma same_keys_maps c c' :
  values c' = values c → tstamp c' = tstamp c → weight c' = weight c →
  same_keys c → same_keys c'.
Proof. unfold same_keys. by intros -> -> ->. Qed.

(** With equal key sets, a key without a value has no stamp and no weight. *)
Lemma same_keys_absent key c :
  same_keys c → values c !! key = None →
  tstamp c !! key = None ∧ weight c !! key = None.
Proof.
  intros [Ht Hw] Hv. apply not_elem_of_dom in Hv.
  split; apply not_elem_of_dom; congruence.
Qed.

Lemma same_keys_delete_key k c : same_keys c → same_keys (delete_key k c).
Proof. intros [Ht Hw]. split; pc_simpl; rewrite !dom_delete_L; congruence. Qed.

Lemma same_keys_Invalidate k c : same_keys c → same_keys (Invalidate k c).
Proof.
  intros H. unfold Invalidate.
  by apply (same_keys_maps (delete_key k c)); [..|apply same_keys_delete_key].
Qed.

Lemma same_keys_empty c : same_keys (set_maps ∅ ∅ ∅ c).
Proof. split; pc_simpl; by rewrite !dom_empty_L. Qed.

Lemma same_keys_Initialize now c : same_keys (Initialize now c).
Proof.
  unfold Initialize.
  eapply same_keys_maps; [| | |apply (same_keys_empty c)];
    by repeat (case_match; pc_simpl).
Qed.

Lemma same_keys_InvalidateAll c : same_keys (InvalidateAll c).
Proof. unfold InvalidateAll. apply same_keys_empty. Qed.

Lemma same_keys_CleanUp now order c : same_keys c → same_keys (CleanUp now order c).
Proof.
  intros H. unfold CleanUp.
  pose proof (CleanUp_loop_same_keys now order c no_candidate H) as H1.
  destruct (CleanUp_loop _ _ _ _) as [c1 a1]. simpl in H1.
  apply (same_keys_maps (delete_key (aKey a1) c1));
    [by destruct (negb _)..|by apply same_keys_delete_key].
Qed.

Lemma same_keys_Put_locked now key (value : V) c :
  same_keys c → same_keys (Put_locked now key value c).
Proof.
  intros [Ht Hw]. split.
  - by rewrite dom_tstamp_Put_locked, values_Put_locked, dom_insert_L, Ht.
  - by rewrite weight_Put_locked, values_Put_locked, !dom_insert_L, Hw.
Qed.

Lemma same_keys_Put now rng key (value : V) c :
  same_keys c → same_keys (Put now rng key value c).
Proof.
  intros H. unfold Put, cleanUpIfNeccissary. apply same_keys_Put_locked.
  destruct (shouldClean now c); [by apply same_keys_CleanUp|done].
Qed.

(** Inserting a stamp for a key that has a value keeps the key sets. *)
Lemma same_keys_stamp key (t : Time) c :
  is_Some (values c !! key) → same_keys c →
  same_keys (set_tstamp (<[key := t]> (tstamp c)) c).
Proof.
  intros Hk [Ht Hw]. apply elem_of_dom in Hk.
  split; pc_simpl; [rewrite dom_insert_L; set_solver|done].
Qed.

Lemma same_keys_GetIfPresent now key c :
  same_keys c → same_keys (GetIfPresent now key c).1.
Proof.
  intros H. unfold GetIfPresent. cbv zeta.
  set (c1 := if isKeyExpired now key c then Invalidate key c else c).
  assert (same_keys c1) as H1.
  { unfold c1. destruct (isKeyExpired now key c); [by apply same_keys_Invalidate|done]. }
  clearbody c1.
  set (c2 := set_statReqs (incr64 (statReqs c1)) c1).
  assert (same_keys c2) as H2 by (by apply (same_keys_maps c1)).
  clearbody c2.
  destruct (values c2 !! key) as [v|] eqn:Hv; [|done].
  set (c3 := if (_ && _) then _ else _).
  assert (same_keys c3) as H3.
  { unfold c3. destruct (_ && _); [apply same_keys_stamp; eauto|].
    destruct (negb _); [apply same_keys_stamp; eauto|done]. }
  clearbody c3. by apply (same_keys_maps c3).
Qed.

Lemma same_keys_loadWithValueLoader now rng key vl c c' r :
  same_keys c → loadWithValueLoader now rng key vl c = Some (c', r) → same_keys c'.
Proof.
  intros H. unfold loadWithValueLoader.
  destruct vl as [f|]; [|done]. destruct (f key) as [v d|e].
  - destruct (_ =? 0); [done|]. intros [= <- _].
    apply same_keys_Put. by apply (same_keys_maps c).
  - by intros [= <- _].
Qed.

Lemma same_keys_GetWithValueLoader now rng key vl c c' r :
  same_keys c → GetWithValueLoader now rng key vl c = Some (c', r) → same_keys c'.
Proof.
  intros H. unfold GetWithValueLoader.
  pose proof (same_keys_GetIfPresent now key c H) as H1.
  destruct (GetIfPresent now key c) as [c1 [v|e]]; simpl in H1.
  - by intros [= <- _].
  - by apply same_keys_loadWithValueLoader.
Qed.

(** ** Accounting of evictions *)

Lemma removed_trans c c1 c2 : removed c c2 ≤ removed c c1 + removed c1 c2.
Proof.
  unfold removed.
  assert (dom (values c) ∖ dom (values c2)
          ⊆ (dom (values c) ∖ dom (values c1)) ∪ (dom (values c1) ∖ dom (values c2))) as Hs.
  { intros k. rewrite elem_of_union, !elem_of_difference.
    destruct (decide (k ∈ dom (values c1))); tauto. }
  apply subseteq_size in Hs.
  rewrite (size_union_alt (dom (values c) ∖ dom (values c1))
             (dom (values c1) ∖ dom (values c2))) in Hs.
  assert (size ((dom (values c1) ∖ dom (values c2)) ∖ (dom (values c) ∖ dom (values c1)))
          ≤ size (dom (values c1) ∖ dom (values c2)))%nat as Hd.
  { apply subseteq_size. intros k. rewrite !elem_of_difference. tauto. }
  lia.
Qed.

Lemma removed_refl c c' : values c' = values c → removed c c' = 0.
Proof.
  unfold removed. intros ->.
  replace (dom (values c) ∖ dom (values c)) with (∅ : gset string); [done|].
  apply set_eq. intros k. rewrite elem_of_difference, elem_of_empty. tauto.
Qed.

Lemma removed_delete k c c' :
  values c' = delete k (values c) → removed c c' ≤ 1.
Proof.
  unfold removed. intros ->. rewrite dom_delete_L.
  assert (dom (values c) ∖ (dom (values c) ∖ {[k]}) ⊆ ({[k]} : gset string)) as Hs.
  { intros j. rewrite !elem_of_difference, elem_of_singleton.
    destruct (decide (j = k)); tauto. }
  apply subseteq_size in Hs. rewrite size_singleton in Hs. lia.
Qed.

Lemma removed_insert k (v : V) c c' :
  values c' = <[k := v]> (values c) → removed c c' = 0.
Proof.
  unfold removed. intros ->. rewrite dom_insert_L.
  replace (dom (values c) ∖ ({[k]} ∪ dom (values c))) with (∅ : gset string); [done|].
  apply set_eq. intros j. rewrite elem_of_difference, elem_of_union, elem_of_empty. tauto.
Qed.

Lemma accounted_refl c c' :
  values c' = values c → statEvictions c' = statEvictions c → accounted c c'.
Proof. intros Hv He. unfold accounted. rewrite (removed_refl _ _ Hv), He. lia. Qed.

Lemma accounted_trans c c1 c2 : accounted c c1 → accounted c1 c2 → accounted c c2.
Proof.
  unfold accounted. intros [H1 H2] [H3 H4].
  pose proof (removed_trans c c1 c2). lia.
Qed.

(** One removal: the three deletes and the increment. *)
Lemma accounted_evict k c :
  minInt64 ≤ statEvictions c → statEvictions c < maxInt64 →
  accounted c (set_statEvictions (incr64 (statEvictions (delete_key k c))) (delete_key k c))
  ∧ statEvictions (set_statEvictions (incr64 (statEvictions (delete_key k c))) (delete_key k c))
    = statEvictions c + 1.
Proof.
  intros Hlo Hhi. set (c' := set_statEvictions _ _).
  assert (values c' = delete k (values c)) as Hv by done.
  assert (statEvictions c' = incr64 (statEvictions c)) as He by done.
  clearbody c'. unfold accounted. rewrite He, incr64_succ by done.
  pose proof (removed_delete k c c' Hv). lia.
Qed.

Lemma Length_delete_key k c :
  Length (delete_key k c) ≤ Length c.
Proof.
  unfold Length. pc_simpl. rewrite map_size_delete.
  destruct (values c !! k); simpl; lia.
Qed.

Lemma CleanUp_loop_accounted now order c a :
  minInt64 ≤ statEvictions c →
  statEvictions c + Z.of_nat (length order) ≤ maxInt64 →
  accounted c (CleanUp_loop now order c a).1
  ∧ statEvictions (CleanUp_loop now order c a).1
    ≤ statEvictions c + Z.of_nat (length order).
Proof.
  revert c a. induction order as [|k rest IH]; intros c a Hlo Hhi; simpl length in *.
  { simpl. split; [by apply accounted_refl|lia]. }
  simpl. destruct (sweepExpired now c k).
  - destruct (accounted_evict k c) as [Ha He]; [lia..|].
    set (c1 := set_statEvictions _ _) in *. clearbody c1.
    destruct (bounded c1); [simpl; split; [done|lia]|].
    destruct (IH c1 a) as [Ha' He']; [lia..|].
    split; [by eapply accounted_trans|lia].
  - assert (∀ a', accounted c (CleanUp_loop now rest c a').1
        ∧ statEvictions (CleanUp_loop now rest c a').1
          ≤ statEvictions c + Z.of_nat (S (length rest))) as Hrec.
    { intros a'. destruct (IH c a') as [Ha' He']; [lia..|]. split; [done|lia]. }
    destruct (decide _); [apply Hrec|]. destruct (replaces _ _ _ _); apply Hrec.
Qed.

Lemma CleanUp_accounted now order c :
  minInt64 ≤ statEvictions c →
  statEvictions c + Z.of_nat (length order) + 1 ≤ maxInt64 →
  accounted c (CleanUp now order c)
  ∧ statEvictions (CleanUp now order c) ≤ statEvictions c + Z.of_nat (length order) + 1.
Proof.
  intros Hlo Hhi. unfold CleanUp.
  destruct (CleanUp_loop_accounted now order c no_candidate) as [Ha He]; [lia..|].
  destruct (CleanUp_loop _ _ _ _) as [c1 a1]. simpl in Ha, He.
  destruct (accounted_evict (aKey a1) c1) as [Ha' He']; [unfold accounted in Ha; lia..|].
  set (c2 := set_statEvictions _ _) in *.
  assert (accounted c c2) as Hc2 by by eapply accounted_trans.
  destruct (negb _); (split; [|pc_simpl; lia]);
    (eapply accounted_trans; [exact Hc2|by apply accounted_refl]).
Qed.

Lemma Length_CleanUp_loop now order c a :
  Length (CleanUp_loop now order c a).1 ≤ Length c.
Proof.
  revert c a. induction order as [|k rest IH]; intros c a; simpl; [lia|].
  pose proof (Length_delete_key k c) as Hd.
  destruct (sweepExpired now c k).
  - destruct (bounded _); [done|]. etrans; [apply IH|done].
  - destruct (decide _); [apply IH|]. destruct (replaces _ _ _ _); apply IH.
Qed.

Lemma accounted_Put_locked now key (value : V) c : accounted c (Put_locked now key value c).
Proof.
  unfold accounted. rewrite statEvictions_Put_locked.
  rewrite (removed_insert key value c) by apply values_Put_locked. lia.
Qed.

Lemma Put_accounted now rng key (value : V) c :
  ranges rng → minInt64 ≤ statEvictions c →
  statEvictions c + Length c + 1 ≤ maxInt64 →
  accounted c (Put now rng key value c).
Proof.
  intros Hr Hlo Hhi. unfold Put, cleanUpIfNeccissary.
  eapply accounted_trans; [|apply accounted_Put_locked].
  destruct (shouldClean now c); [|by apply accounted_refl].
  apply CleanUp_accounted; [done|].
  rewrite (range_order_length _ _ (Hr (values c))). unfold Length in Hhi. lia.
Qed.

Lemma Invalidate_accounted key c :
  minInt64 ≤ statEvictions c → statEvictions c < maxInt64 →
  accounted c (Invalidate key c)
  ∧ statEvictions (Invalidate key c) = statEvictions c + 1
  ∧ Length (Invalidate key c) ≤ Length c.
Proof.
  intros Hlo Hhi. unfold Invalidate.
  destruct (accounted_evict key c Hlo Hhi) as [Ha He].
  repeat split; try done; try apply Ha. apply (Length_delete_key key c).
Qed.

Lemma GetIfPresent_accounted now key c :
  minInt64 ≤ statEvictions c → statEvictions c < maxInt64 →
  accounted c (GetIfPresent now key c).1
  ∧ statEvictions (GetIfPresent now key c).1 ≤ statEvictions c + 1
  ∧ Length (GetIfPresent now key c).1 ≤ Length c.
Proof.
  intros Hlo Hhi. unfold GetIfPresent. cbv zeta.
  set (c1 := if isKeyExpired now key c then Invalidate key c else c).
  assert (accounted c c1 ∧ statEvictions c1 ≤ statEvictions c + 1
          ∧ Length c1 ≤ Length c) as (Ha & He & Hl).
  { unfold c1. destruct (isKeyExpired now key c).
    - destruct (Invalidate_accounted key c Hlo Hhi) as (? & ? & ?).
      repeat split; try done; try apply H; lia.
    - split; [by apply accounted_refl|lia]. }
  clearbody c1.
  set (c2 := set_statReqs (incr64 (statReqs c1)) c1).
  assert (values c2 = values c1 ∧ statEvictions c2 = statEvictions c1) as [Hv2 He2] by done.
  clearbody c2.
  destruct (values c2 !! key) as [v|] eqn:Hv; pc_simpl.
  - set (c3 := if (_ && _) then _ else _).
    assert (values c3 = values c2 ∧ statEvictions c3 = statEvictions c2) as [Hv3 He3].
    { unfold c3. destruct (_ && _); [done|]. by destruct (negb _). }
    clearbody c3. unfold Length in *. pc_simpl. rewrite Hv3, Hv2, He3, He2.
    split; [|done].
    eapply accounted_trans; [exact Ha|]. apply accounted_refl; pc_simpl; congruence.
  - unfold Length in *. rewrite Hv2, He2. split; [|done].
    eapply accounted_trans; [exact Ha|]. by apply accounted_refl.
Qed.

Lemma loadWithValueLoader_accounted now rng key vl c c' r :
  ranges rng → minInt64 ≤ statEvictions c →
  statEvictions c + Length c + 1 ≤ maxInt64 →
  loadWithValueLoader now rng key vl c = Some (c', r) → accounted c c'.
Proof.
  intros Hr Hlo Hhi. unfold loadWithValueLoader.
  destruct vl as [f|]; [|done]. destruct (f key) as [v d|e].
  - destruct (_ =? 0); [done|]. intros [= <- _].
    set (c1 := set_statLoad _ _ c).
    eapply accounted_trans; [apply (accounted_refl c c1); done|].
    by apply Put_accounted.
  - intros [= <- _]. by apply accounted_refl.
Qed.

Lemma GetWithValueLoader_accounted now rng key vl c c' r :
  ranges rng → minInt64 ≤ statEvictions c →
  statEvictions c + Length c + 2 ≤ maxInt64 →
  GetWithValueLoader now rng key vl c = Some (c', r) → accounted c c'.
Proof.
  intros Hr Hlo Hhi. unfold GetWithValueLoader.
  pose proof (Length_nonneg c).
  destruct (GetIfPresent_accounted now key c) as (Ha & He & Hl); [lia..|].
  destruct (GetIfPresent now key c) as [c1 [v|e]]; simpl in *.
  - by intros [= <- _].
  - intros Hload. eapply accounted_trans; [exact Ha|].
    eapply loadWithValueLoader_accounted; [done| | |exact Hload];
      unfold accounted in Ha; lia.
Qed.

(** ** Bounds on one call *)

Lemma Length_CleanUp now order c : Length (CleanUp now order c) ≤ Length c.
Proof.
  unfold CleanUp. pose proof (Length_CleanUp_loop now order c no_candidate) as Hl.
  destruct (CleanUp_loop _ _ _ _) as [c1 a1]. simpl in Hl.
  pose proof (Length_delete_key (aKey a1) c1) as Hd.
  destruct (negb _); unfold Length in *; pc_simpl; lia.
Qed.

Lemma Put_bounds now rng key (value : V) c :
  ranges rng → minInt64 ≤ statEvictions c →
  statEvictions c + Length c + 1 ≤ maxInt64 →
  statEvictions (Put now rng key value c) ≤ statEvictions c + Length c + 1
  ∧ Length (Put now rng key value c) ≤ Length c + 1.
Proof.
  intros Hr Hlo Hhi. unfold Put, cleanUpIfNeccissary.
  rewrite statEvictions_Put_locked.
  pose proof (Length_nonneg c) as Hn.
  destruct (shouldClean now c).
  - pose proof (Length_Put_locked now key value (CleanUp now (rng (values c)) c)).
    pose proof (Length_CleanUp now (rng (values c)) c).
    destruct (CleanUp_accounted now (rng (values c)) c) as [_ He]; [done| |];
      rewrite (range_order_length _ _ (Hr (values c))) in *;
      unfold Length in *; lia.
  - pose proof (Length_Put_locked now key value c). lia.
Qed.

Lemma loadWithValueLoader_bounds now rng key vl c c' r :
  ranges rng → minInt64 ≤ statEvictions c →
  statEvictions c + Length c + 1 ≤ maxInt64 →
  loadWithValueLoader now rng key vl c = Some (c', r) →
  statEvictions c' ≤ statEvictions c + Length c + 1 ∧ Length c' ≤ Length c + 1.
Proof.
  intros Hr Hlo Hhi. unfold loadWithValueLoader.
  pose proof (Length_nonneg c) as Hn.
  destruct vl as [f|]; [|done]. destruct (f key) as [v d|e].
  - destruct (_ =? 0); [done|]. intros [= <- _].
    set (c1 := set_statLoad _ _ c).
    by apply (Put_bounds _ rng key v c1).
  - intros [= <- _]. lia.
Qed.

Lemma GetWithValueLoader_bounds now rng key vl c c' r :
  ranges rng → minInt64 ≤ statEvictions c →
  statEvictions c + Length c + 2 ≤ maxInt64 →
  GetWithValueLoader now rng key vl c = Some (c', r) →
  statEvictions c' ≤ statEvictions c + Length c + 2 ∧ Length c' ≤ Length c + 1.
Proof.
  intros Hr Hlo Hhi. unfold GetWithValueLoader.
  pose proof (Length_nonneg c) as Hn.
  destruct (GetIfPresent_accounted now key c) as ([Ha _] & He & Hl); [lia..|].
  destruct (GetIfPresent now key c) as [c1 [v|e]]; simpl in *.
  - intros [= <- _]. lia.
  - intros Hload.
    destruct (loadWithValueLoader_bounds now rng key vl c1 c' r); [done|lia..|done|].
    lia.
Qed.

(** What one call does to the counter and to the number of keys. *)
Lemma exec_accounted now rng (o : op V) c c' :
  ranges rng → minInt64 ≤ statEvictions c →
  statEvictions c + Length c + 2 ≤ maxInt64 →
  exec now rng o c = Some c' →
  accounted c c'
  ∧ statEvictions c' ≤ statEvictions c + Length c + 2
  ∧ Length c' ≤ Length c + 1.
Proof.
  intros Hr Hlo Hhi Hex. pose proof (Length_nonneg c) as Hlen.
  destruct o; simpl in Hex.
  - injection Hex as <-.
    destruct (Put_bounds now rng key value c); [done|lia..|].
    split; [apply Put_accounted; [done|lia..]|lia].
  - injection Hex as <-.
    destruct (GetIfPresent_accounted now key c) as (? & ? & ?); [lia..|].
    split; [done|lia].
  - destruct (GetWithValueLoader _ _ _ _ _) as [[c1 r]|] eqn:E; [|done].
    injection Hex as <-. split; [by eapply GetWithValueLoader_accounted|].
    by eapply GetWithValueLoader_bounds.
  - unfold Get in Hex.
    destruct (GetWithValueLoader _ _ _ _ _) as [[c1 r]|] eqn:E; [|done].
    injection Hex as <-. split; [by eapply GetWithValueLoader_accounted|].
    by eapply GetWithValueLoader_bounds.
  - unfold Load in Hex.
    destruct (GetWithValueLoader _ _ _ _ _) as [[c1 r]|] eqn:E; [|done].
    injection Hex as <-. split; [by eapply GetWithValueLoader_accounted|].
    by eapply GetWithValueLoader_bounds.
  - unfold Refresh in Hex.
    destruct (loadWithValueLoader _ _ _ _ _) as [[c1 r]|] eqn:E; [|done].
    injection Hex as <-.
    destruct (loadWithValueLoader_bounds now rng key (ValueLoaderField c) c c1 r);
      [done|lia..|done|].
    split; [eapply loadWithValueLoader_accounted; [done| | |exact E]; lia|lia].
  - injection Hex as <-.
    destruct (Invalidate_accounted key c) as (Ha & He & Hl); [lia..|].
    split; [done|lia].
  - injection Hex as <-.
    assert (statEvictions (InvalidateAll c) = statEvictions c + Length c) as He.
    { unfold InvalidateAll. pc_simpl. apply wrap64_id.
      unfold int64_range. lia. }
    assert (removed c (InvalidateAll c) = Length c) as Hrem.
    { unfold removed, InvalidateAll. pc_simpl.
      rewrite dom_empty_L, difference_empty_L. symmetry. apply Length_dom. }
    assert (Length (InvalidateAll c) = 0) as Hl.
    { unfold Length, InvalidateAll. pc_simpl. by rewrite map_size_empty. }
    unfold accounted. rewrite He, Hrem, Hl. lia.
  - injection Hex as <-.
    pose proof (Length_CleanUp now (rng (values c)) c).
    destruct (CleanUp_accounted now (rng (values c)) c) as [Ha He]; [done| |];
      rewrite (range_order_length _ _ (Hr (values c))) in *;
      unfold Length in *; [lia|]. split; [done|lia].
  - injection Hex as <-. split; [by apply accounted_refl|].
    unfold SetExpiresAt, Length. pc_simpl. lia.
  - injection Hex as <-. split; [by apply accounted_refl|].
    unfold SetExpiresIn, Length. pc_simpl. lia.
  - injection Hex as <-. split; [by apply accounted_refl|].
    unfold SetWeight, Length. pc_simpl. lia.
Qed.

Lemma run_accounted (cs : list (call V)) c c' :
  (∀ x, x ∈ cs → ranges (call_rng x)) →
  minInt64 ≤ statEvictions c →
  statEvictions c
    + Z.of_nat (length cs) * (Length c + Z.of_nat (length cs) + 2) ≤ maxInt64 →
  run cs c = Some c' → accounted c c'.
Proof.
  revert c. induction cs as [|x cs IH]; intros c Hr Hlo Hhi; simpl.
  { intros [= <-]. by apply accounted_refl. }
  destruct (exec_call x c) as [c1|] eqn:Hex; [|done]. intros Hrun.
  pose proof (Length_nonneg c) as Hlen.
  simpl length in Hhi. rewrite Nat2Z.inj_succ in Hhi.
  destruct (exec_accounted (call_now x) (call_rng x) (call_op x) c c1)
    as (Ha & He & Hl); [apply Hr; by left|done|nia|done|].
  eapply accounted_trans; [exact Ha|]. apply IH; [| | |done].
  - intros y Hy. apply Hr. by right.
  - unfold accounted in Ha. lia.
  - nia.
Qed.

(** Which calls keep the key sets equal. *)
Lemma exec_same_keys now rng (o : op V) c c' :
  same_keys c → ¬ override_of_absent o c → exec now rng o c = Some c' →
  same_keys c'.
Proof.
  intros H Hno. destruct o; simpl in *.
  - intros [= <-]. by apply same_keys_Put.
  - intros [= <-]. by apply same_keys_GetIfPresent.
  - destruct (GetWithValueLoader _ _ _ _ _) as [[c1 r]|] eqn:E; [|done].
    intros [= <-]. by eapply same_keys_GetWithValueLoader.
  - unfold Get. destruct (GetWithValueLoader _ _ _ _ _) as [[c1 r]|] eqn:E; [|done].
    intros [= <-]. by eapply same_keys_GetWithValueLoader.
  - unfold Load. destruct (GetWithValueLoader _ _ _ _ _) as [[c1 r]|] eqn:E; [|done].
    intros [= <-]. by eapply same_keys_GetWithValueLoader.
  - unfold Refresh. destruct (loadWithValueLoader _ _ _ _ _) as [[c1 r]|] eqn:E; [|done].
    intros [= <-]. by eapply same_keys_loadWithValueLoader.
  - intros [= <-]. by apply same_keys_Invalidate.
  - intros [= <-]. apply same_keys_InvalidateAll.
  - intros [= <-]. by apply same_keys_CleanUp.
  - intros [= <-]. apply same_keys_stamp; [|done].
    by apply not_eq_None_Some.
  - intros [= <-]. apply same_keys_stamp; [|done].
    by apply not_eq_None_Some.
  - intros [= <-]. destruct H as [Ht Hw].
    apply not_eq_None_Some, elem_of_dom in Hno.
    split; unfold SetWeight; pc_simpl; [done|]. rewrite dom_insert_L. set_solver.
Qed.

(** The calls that take no loader never panic. *)
Lemma exec_total now rng (o : op V) c :
  match o with
  | OpGetWithValueLoader _ _ | OpGet _ | OpLoad _ | OpRefresh _ => True
  | _ => is_Some (exec now rng o c)
  end.
Proof. destruct o; simpl; eauto. Qed.

End Facts.

(** * The claims *)

Section Claims.
Context {V : Type}.
Implicit Types (c : PowerCache V) (key k : string) (now : Time)
  (rng : gmap string V → list string).

(** C2. A cache made by [NewMaxKeysCache N], with [N] positive, holds at most
    [N] keys after any sequence of [Put]s, whatever the clock readings and
    the iteration orders.  When [N] is 5 and the keys put are a, b, c, e, f,
    g in this order, the cache ends with 5 keys and an eviction count of 1:
    g and all of a, b, c, e, f but one victim. *)
Theorem C2_max_keys_bound (N : Z) (t0 : Time) (ps : list (put_call V)) :
  0 < N → (∀ p, p ∈ ps → ranges (put_rng p)) →
  Length (run_puts ps (NewMaxKeysCache t0 N)) ≤ N
  ∧ (N = 5 → put_key <$> ps = ["a"; "b"; "c"; "e"; "f"; "g"] →
     Length (run_puts ps (NewMaxKeysCache t0 N)) = 5
     ∧ EvictionCount (run_puts ps (NewMaxKeysCache t0 N)) = 1
     ∧ ∃ victim, victim ∈ ["a"; "b"; "c"; "e"; "f"]
         ∧ dom (values (run_puts ps (NewMaxKeysCache t0 N)))
           = list_to_set ["a"; "b"; "c"; "e"; "f"; "g"] ∖ {[victim]}).
Proof.
  intros HN Hr. split.
  { apply (run_puts_keys_only N); [apply keys_only_NewMaxKeysCache|done..|].
    unfold Length. simpl. rewrite map_size_empty. lia. }
  intros -> Hkeys.
  destruct ps as [|p1 [|p2 [|p3 [|p4 [|p5 [|p6 [|? ?]]]]]]]; try discriminate.
  injection Hkeys as K1 K2 K3 K4 K5 K6.
  unfold run_puts, run_put, EvictionCount. cbn [foldl].
  rewrite K1, K2, K3, K4, K5, K6.
  set (c0 := NewMaxKeysCache t0 5).
  assert (keys_only 5 c0) as H0 by apply keys_only_NewMaxKeysCache.
  assert (dom (values c0) = ∅ ∧ statEvictions c0 = 0) as [D0 E0].
  { split; [apply dom_empty_L|done]. }
  clearbody c0.
  pose proof (keys_only_Put 5 (put_now p1) (put_rng p1) "a" (put_value p1) c0 H0)
    as H1.
  destruct (Put_below_dom 5 (put_now p1) (put_rng p1) "a" (put_value p1) c0 H0 HN)
    as [D1 E1].
  { rewrite Length_dom, D0. by vm_compute. }
  rewrite D0 in D1. rewrite E0 in E1.
  set (c1 := Put _ _ "a" _ c0) in *. clearbody c1. clear H0 D0 E0.
  pose proof (keys_only_Put 5 (put_now p2) (put_rng p2) "b" (put_value p2) c1 H1)
    as H2.
  destruct (Put_below_dom 5 (put_now p2) (put_rng p2) "b" (put_value p2) c1 H1 HN)
    as [D2 E2].
  { rewrite Length_dom, D1. by vm_compute. }
  rewrite D1 in D2. rewrite E1 in E2.
  set (c2 := Put _ _ "b" _ c1) in *. clearbody c2. clear H1 D1 E1.
  pose proof (keys_only_Put 5 (put_now p3) (put_rng p3) "c" (put_value p3) c2 H2)
    as H3.
  destruct (Put_below_dom 5 (put_now p3) (put_rng p3) "c" (put_value p3) c2 H2 HN)
    as [D3 E3].
  { rewrite Length_dom, D2. by vm_compute. }
  rewrite D2 in D3. rewrite E2 in E3.
  set (c3 := Put _ _ "c" _ c2) in *. clearbody c3. clear H2 D2 E2.
  pose proof (keys_only_Put 5 (put_now p4) (put_rng p4) "e" (put_value p4) c3 H3)
    as H4.
  destruct (Put_below_dom 5 (put_now p4) (put_rng p4) "e" (put_value p4) c3 H3 HN)
    as [D4 E4].
  { rewrite Length_dom, D3. by vm_compute. }
  rewrite D3 in D4. rewrite E3 in E4.
  set (c4 := Put _ _ "e" _ c3) in *. clearbody c4. clear H3 D3 E3.
  pose proof (keys_only_Put 5 (put_now p5) (put_rng p5) "f" (put_value p5) c4 H4)
    as H5.
  destruct (Put_below_dom 5 (put_now p5) (put_rng p5) "f" (put_value p5) c4 H4 HN)
    as [D5 E5].
  { rewrite Length_dom, D4. by vm_compute. }
  rewrite D4 in D5. rewrite E4 in E5.
  set (c5 := Put _ _ "f" _ c4) in *. clearbody c5. clear H4 D4 E4.
  destruct (Put_at 5 (put_now p6) (put_rng p6) "g" (put_value p6) c5 H5 HN)
    as (victim & Hin & D6 & E6).
  { rewrite Length_dom, D5. by vm_compute. }
  { apply Hr. do 5 right. by left. }
  rewrite Length_dom, D6, E6, E5, D5. rewrite D5 in Hin. clear D5 D6 E5 E6 H5.
  assert (victim ∈ ["a"; "b"; "c"; "e"; "f"]) as Hv.
  { rewrite !elem_of_union, !elem_of_singleton, elem_of_empty in Hin.
    rewrite !elem_of_cons. clear -Hin. intuition. }
  clear Hin.
  split; [|split; [done|]].
  - repeat (apply elem_of_cons in Hv as [->|Hv]); [by vm_compute..|].
    by apply elem_of_nil in Hv.
  - exists victim. split; [done|].
    repeat (apply elem_of_cons in Hv as [->|Hv]); [by vm_compute..|].
    by apply elem_of_nil in Hv.
Qed.

(** C6. What the code does: the stamp [Put] leaves for its key is
    [now + accessDuration] whenever access-expiry is configured, also when
    write-expiry is configured too; it is [now + writeDuration] when only
    write-expiry is configured, and [now] when neither is. *)
Theorem C6_put_stamp_last_assignment_wins now rng key (value : V) c :
  tstamp (Put now rng key value c) !! key =
  Some (if negb (ExpiresAfterAccessDuration c =? emptyDuration)
        then Time_Add now (ExpiresAfterAccessDuration c)
        else if negb (ExpiresAfterWriteDuration c =? emptyDuration)
        then Time_Add now (ExpiresAfterWriteDuration c)
        else now).
Proof.
  unfold Put. rewrite tstamp_Put_locked_lookup.
  assert (policy (cleanUpIfNeccissary now rng c) = policy c) as Hp.
  { unfold cleanUpIfNeccissary. destruct (shouldClean now c); [apply CleanUp_policy|done]. }
  unfold policy in Hp. by injection Hp as -> -> _ _ _.
Qed.

(** C9. What the code does: from a state in which the three maps have the
    same key set, as [Initialize] leaves them, a sequence of calls none of
    which is a per-key override of a key without a value ends in such a
    state. *)
Theorem C9_same_keys_preserved (cs : list (call V)) c c' :
  same_keys c → no_override_of_absent cs c → run cs c = Some c' →
  same_keys c'.
Proof.
  revert c. induction cs as [|x cs IH]; intros c H Hno; simpl.
  { by intros [= <-]. }
  destruct Hno as [Hx Hrest].
  destruct (exec_call x c) as [c1|] eqn:Hex; [|done].
  apply IH; [|by apply Hrest].
  by apply (exec_same_keys (call_now x) (call_rng x) (call_op x) c).
Qed.

(** C8. What the code does: while the counter stays within int64, no
    sequence of calls lowers the eviction counter, and the counter rises by
    at least the number of keys that have gone.  [Invalidate] adds exactly one
    at every call, for a key that is absent too; [InvalidateAll] adds the
    number of entries. *)
Theorem C8_eviction_counter (cs : list (call V)) c c' :
  (∀ x, x ∈ cs → ranges (call_rng x)) →
  minInt64 ≤ EvictionCount c →
  EvictionCount c
    + Z.of_nat (length cs) * (Length c + Z.of_nat (length cs) + 2) ≤ maxInt64 →
  run cs c = Some c' →
  EvictionCount c ≤ EvictionCount c'
  ∧ removed c c' ≤ EvictionCount c' - EvictionCount c
  ∧ (∀ key c0, minInt64 ≤ EvictionCount c0 → EvictionCount c0 < maxInt64 →
       EvictionCount (Invalidate key c0) = EvictionCount c0 + 1
       ∧ removed c0 (Invalidate key c0) ≤ 1)
  ∧ (∀ c0, minInt64 ≤ EvictionCount c0 → EvictionCount c0 + Length c0 ≤ maxInt64 →
       EvictionCount (InvalidateAll c0) = EvictionCount c0 + Length c0
       ∧ removed c0 (InvalidateAll c0) = Length c0).
Proof.
  unfold EvictionCount. intros Hr Hlo Hhi Hrun.
  destruct (run_accounted cs c c' Hr Hlo Hhi Hrun) as [H1 H2].
  split; [done|]. split; [done|]. split.
  - intros key c0 Hlo0 Hhi0.
    destruct (Invalidate_accounted key c0 Hlo0 Hhi0) as ([_ Hrem] & He & _).
    split; [done|]. rewrite He in Hrem. lia.
  - intros c0 Hlo0 Hhi0. pose proof (Length_nonneg c0). split.
    + unfold InvalidateAll. pc_simpl. apply wrap64_id. unfold int64_range. lia.
    + unfold removed, InvalidateAll. pc_simpl.
      rewrite dom_empty_L, difference_empty_L. symmetry. apply Length_dom.
Qed.

(** C10. [Invalidate] of a key that none of the three maps holds leaves the
    maps as they are and raises the eviction counter by one; so does
    [CleanUp] on a cache whose maps are empty. *)
Theorem C10_noop_removal_counts now order key c :
  minInt64 ≤ EvictionCount c → EvictionCount c < maxInt64 →
  (values c !! key = None → tstamp c !! key = None → weight c !! key = None →
   values (Invalidate key c) = values c
   ∧ tstamp (Invalidate key c) = tstamp c
   ∧ weight (Invalidate key c) = weight c
   ∧ EvictionCount (Invalidate key c) = EvictionCount c + 1)
  ∧ (values c = ∅ → tstamp c = ∅ → weight c = ∅ →
     range_order (values c) order →
     values (CleanUp now order c) = ∅
     ∧ tstamp (CleanUp now order c) = ∅
     ∧ weight (CleanUp now order c) = ∅
     ∧ EvictionCount (CleanUp now order c) = EvictionCount c + 1).
Proof.
  unfold EvictionCount. intros Hlo Hhi. split.
  - intros Hv Ht Hw. unfold Invalidate. pc_simpl.
    rewrite !delete_id by done. by rewrite incr64_succ.
  - intros Hv Ht Hw Hr. rewrite Hv in Hr. apply range_order_empty in Hr as ->.
    unfold CleanUp. cbn [CleanUp_loop aKey no_candidate]. pc_simpl.
    destruct (PeriodicMaintenance c =? emptyDuration); pc_simpl;
      rewrite Hv, Ht, Hw, !delete_empty; by rewrite incr64_succ.
Qed.

(** C7. What the code does: when the lookup misses and the loader returns an
    error, [GetWithValueLoader] (and [Get], for the loader of the engine)
    returns that error and the state the lookup left; the failed load
    itself changes nothing.  The key has no value afterwards, a later
    [GetIfPresent] reports [ErrNotPresent], and the size estimate and the
    load statistics are those of the state before the call.  The maps are
    those of the state before the call when the key was not expired; an
    expired key has been deleted from the three of them by the lookup. *)
Theorem C7_loader_error now rng key (f : ValueLoader V) e c :
  f key = Failed e →
  (GetIfPresent now key c).2 = Err ErrNotPresent →
  GetWithValueLoader now rng key (Some f) c = Some ((GetIfPresent now key c).1, Err e)
  ∧ (ValueLoaderField c = Some f →
     Get now rng key c = Some ((GetIfPresent now key c).1, Err e))
  ∧ (∀ c0, loadWithValueLoader now rng key (Some f) c0 = Some (c0, Err e))
  ∧ values (GetIfPresent now key c).1 !! key = None
  ∧ (∀ now', (GetIfPresent now' key (GetIfPresent now key c).1).2 = Err ErrNotPresent)
  ∧ cacheSizeEst (GetIfPresent now key c).1 = cacheSizeEst c
  ∧ statLoadCount (GetIfPresent now key c).1 = statLoadCount c
  ∧ statLoadDur (GetIfPresent now key c).1 = statLoadDur c
  ∧ (isKeyExpired now key c = false →
     values (GetIfPresent now key c).1 = values c
     ∧ tstamp (GetIfPresent now key c).1 = tstamp c
     ∧ weight (GetIfPresent now key c).1 = weight c)
  ∧ (isKeyExpired now key c = true →
     values (GetIfPresent now key c).1 = delete key (values c)
     ∧ tstamp (GetIfPresent now key c).1 = delete key (tstamp c)
     ∧ weight (GetIfPresent now key c).1 = delete key (weight c)).
Proof.
  intros Hf Hmiss.
  assert (∀ c0, loadWithValueLoader now rng key (Some f) c0 = Some (c0, Err e)) as Hload.
  { intros c0. unfold loadWithValueLoader. by rewrite Hf. }
  assert (GetWithValueLoader now rng key (Some f) c
          = Some ((GetIfPresent now key c).1, Err e)) as Hget.
  { unfold GetWithValueLoader. destruct (GetIfPresent now key c) as [c1 [v|e1]]; [done|].
    apply Hload. }
  assert (values (GetIfPresent now key c).1 !! key = None) as Hnone.
  { revert Hmiss. unfold GetIfPresent. cbv zeta.
    set (c2 := set_statReqs _ _). clearbody c2.
    by destruct (values c2 !! key) eqn:Hv. }
  split; [done|]. split; [by unfold Get; intros ->|]. split; [done|].
  split; [done|]. split.
  { intros now'. set (c1 := (GetIfPresent now key c).1) in *. clearbody c1.
    unfold GetIfPresent. cbv zeta.
    set (c2 := if isKeyExpired now' key c1 then Invalidate key c1 else c1).
    assert (values (set_statReqs (incr64 (statReqs c2)) c2) !! key = None) as Hv.
    { pc_simpl. unfold c2. destruct (isKeyExpired now' key c1); [|done].
      unfold Invalidate. pc_simpl. apply lookup_delete_eq. }
    by rewrite Hv. }
  revert Hmiss. unfold GetIfPresent. cbv zeta.
  destruct (isKeyExpired now key c); unfold Invalidate; pc_simpl.
  - destruct (delete key (values c) !! key) eqn:Hv; [done|]. by intros _.
  - destruct (values c !! key) eqn:Hv; [done|]. by intros _.
Qed.

End Claims.

(** * The claims on concrete caches *)

(** When [isKeyExpired] answers true: the stamp plus the configured duration
    is before now. *)
Lemma isKeyExpired_spec {V : Type} (now : Time) (key : string) (c : PowerCache V) :
  isKeyExpired now key c = true ↔
  ∃ t, tstamp c !! key = Some t
    ∧ ((ExpiresAfterAccessDuration c ≠ emptyDuration
        ∧ t + ExpiresAfterAccessDuration c < now)
       ∨ (ExpiresAfterWriteDuration c ≠ emptyDuration
          ∧ t + ExpiresAfterWriteDuration c < now)).
Proof.
  unfold isKeyExpired, Time_After, Time_Add, emptyDuration.
  destruct (tstamp c !! key) as [t|]; split.
  - destruct (ExpiresAfterAccessDuration c =? 0) eqn:Ea;
      destruct (ExpiresAfterWriteDuration c =? 0) eqn:Ew; simpl;
      repeat case_match; try done; intros _; exists t; split; try done; lia.
  - intros (t' & [= <-] & H).
    destruct (ExpiresAfterAccessDuration c =? 0) eqn:Ea;
      destruct (ExpiresAfterWriteDuration c =? 0) eqn:Ew; simpl;
      repeat case_match; try done; lia.
  - rewrite !andb_false_r. done.
  - by intros (t' & [=] & _).
Qed.

(** C1. A write-expiry cache of 5 ms, one key written when the cache is made:
    the stored deadline is 5 ms later.  After 7 ms the deadline has passed,
    as the test of the sweep in [CleanUp] finds, yet [isKeyExpired] answers
    false and [GetIfPresent] returns the value; [isKeyExpired] only answers
    true after 10 ms, the deadline plus the duration once more. *)
Theorem C1_hit_after_deadline :
  tstamp write5ms !! "k" = Some (after (5 * millisecond))
  ∧ Time_Before (after (5 * millisecond)) (after (7 * millisecond)) = true
  ∧ sweepExpired (after (7 * millisecond)) write5ms "k" = true
  ∧ isKeyExpired (after (7 * millisecond)) "k" write5ms = false
  ∧ (GetIfPresent (after (7 * millisecond)) "k" write5ms).2 = Ok "v"
  ∧ isKeyExpired (after (10 * millisecond)) "k" write5ms = false
  ∧ isKeyExpired (after (10 * millisecond + 1)) "k" write5ms = true
  ∧ (GetIfPresent (after (10 * millisecond + 1)) "k" write5ms).2 = Err ErrNotPresent.
Proof. vm_compute. repeat split; reflexivity. Qed.

(** C3. Two live keys under write-expiry alone, a with the nearer deadline:
    the condition of line 249 is false, the age factor is the inverted
    elapsed time, and the pass evicts b in either order.  With the same
    stamps under access-expiry the age factor is the remaining time and the
    pass evicts a. *)
Theorem C3_write_expiry_scored_by_elapsed :
  ExpiresAfterWriteDuration two_live_write = 100
  ∧ ExpiresAfterAccessDuration two_live_write = emptyDuration
  ∧ range_order (values two_live_write) ["a"; "b"]
  ∧ range_order (values two_live_write) ["b"; "a"]
  ∧ tstamp two_live_write !! "a" = Some (after 110)
  ∧ tstamp two_live_write !! "b" = Some (after 150)
  ∧ tstamp two_live_access !! "a" = Some (after 110)
  ∧ tstamp two_live_access !! "b" = Some (after 150)
  ∧ ageByRemaining two_live_write = false
  ∧ ageByRemaining two_live_access = true
  ∧ range_keys (values (CleanUp (after 100) ["a"; "b"] two_live_write)) = ["a"]
  ∧ range_keys (values (CleanUp (after 100) ["b"; "a"] two_live_write)) = ["a"]
  ∧ range_keys (values (CleanUp (after 100) ["a"; "b"] two_live_access)) = ["b"]
  ∧ range_keys (values (CleanUp (after 100) ["b"; "a"] two_live_access)) = ["b"].
Proof.
  unfold range_order. vm_compute.
  repeat split; first [reflexivity | apply perm_swap].
Qed.

(** C4. A bounded write-expiry cache, 120 ns after it is made, with b
    expired and a live.  When the pass meets a first, it sweeps b, stops,
    and then removes a as well: two keys go.  When it meets b first, it
    sweeps b, stops, and counts a second eviction for which no key goes. *)
Theorem C4_sweep_then_victim :
  range_order (values one_expired) ["a"; "b"]
  ∧ range_order (values one_expired) ["b"; "a"]
  ∧ sweepExpired (after 120) one_expired "b" = true
  ∧ sweepExpired (after 120) one_expired "a" = false
  ∧ bounded one_expired = true
  ∧ range_keys (values (CleanUp (after 120) ["a"; "b"] one_expired)) = []
  ∧ EvictionCount (CleanUp (after 120) ["a"; "b"] one_expired)
    = EvictionCount one_expired + 2
  ∧ range_keys (values (CleanUp (after 120) ["b"; "a"] one_expired)) = ["a"]
  ∧ EvictionCount (CleanUp (after 120) ["b"; "a"] one_expired)
    = EvictionCount one_expired + 2.
Proof.
  unfold range_order. vm_compute.
  repeat split; first [reflexivity | apply perm_swap].
Qed.

(** C5. A cache with maintenance every 5 minutes.  One nanosecond after it
    is made, the scheduled time still ahead, the periodic condition holds
    and [Put] runs a pass, which counts an eviction on the empty cache; at
    the scheduled time and after it the condition does not hold. *)
Theorem C5_periodic_due_while_ahead :
  nextClean (NewExpiresAfterWriteCache (V := string) start (5 * millisecond))
  = after (5 * minute)
  ∧ periodicDue (after 1)
      (NewExpiresAfterWriteCache (V := string) start (5 * millisecond)) = true
  ∧ shouldClean (after 1)
      (NewExpiresAfterWriteCache (V := string) start (5 * millisecond)) = true
  ∧ EvictionCount
      (put (after 1) "k" "v" (NewExpiresAfterWriteCache start (5 * millisecond))) = 1
  ∧ periodicDue (after (5 * minute))
      (NewExpiresAfterWriteCache (V := string) start (5 * millisecond)) = false
  ∧ periodicDue (after (6 * minute))
      (NewExpiresAfterWriteCache (V := string) start (5 * millisecond)) = false
  ∧ shouldClean (after (6 * minute))
      (NewExpiresAfterWriteCache (V := string) start (5 * millisecond)) = false.
Proof. vm_compute. repeat split; reflexivity. Qed.

(** C6, as stated, fails: with write-expiry 10 and access-expiry 3 both
    configured, [Put] 100 ns after the start leaves the stamp 103, not
    110. *)
Lemma C6_write_expiry_does_not_win :
  ExpiresAfterWriteDuration both_expiries = 10
  ∧ ExpiresAfterAccessDuration both_expiries = 3
  ∧ tstamp (put (after 100) "k" "v" both_expiries) !! "k" = Some (after 103)
  ∧ tstamp (put (after 100) "k" "v" both_expiries) !! "k"
    ≠ Some (Time_Add (after 100) (ExpiresAfterWriteDuration both_expiries)).
Proof. vm_compute. repeat split; [reflexivity..|discriminate]. Qed.

(** C7, as stated, fails: the key of [stale] expired 10 ns after the start;
    20 ns after the start the loader fails, and the call has deleted the key
    from the maps. *)
Lemma C7_expired_key_is_deleted :
  values stale !! "k" = Some "v"
  ∧ isKeyExpired (after 20) "k" stale = true
  ∧ match GetWithValueLoader (after 20) range_keys "k" (Some failing) stale with
    | Some (c', r) =>
        r = Err (ErrOther "boom")
        ∧ values c' !! "k" = None ∧ values c' ≠ values stale
        ∧ tstamp c' !! "k" = None ∧ weight c' !! "k" = None
    | None => False
    end.
Proof.
  vm_compute. repeat split; try reflexivity. discriminate.
Qed.

Lemma C7_witness :
  failing "k" = Failed (ErrOther "boom")
  ∧ (GetIfPresent (after 20) "k" stale).2 = Err ErrNotPresent
  ∧ GetWithValueLoader (after 20) range_keys "k" (Some failing) stale
    = Some ((GetIfPresent (after 20) "k" stale).1, Err (ErrOther "boom"))
  ∧ values (GetIfPresent (after 20) "k" stale).1 !! "k" = None.
Proof.
  assert (failing "k" = Failed (ErrOther "boom")) as Hf by reflexivity.
  assert ((GetIfPresent (after 20) "k" stale).2 = Err ErrNotPresent) as Hm
    by (vm_compute; reflexivity).
  pose proof (C7_loader_error (after 20) range_keys "k" failing (ErrOther "boom")
                stale Hf Hm) as (H1 & _ & _ & H4 & _).
  exact (conj Hf (conj Hm (conj H1 H4))).
Defined.

(** C8, as stated, fails: [Invalidate] of a key the fresh cache does not
    hold raises the counter by one and removes no key. *)
Lemma C8_increment_without_removal :
  values fresh !! "k" = None
  ∧ EvictionCount (Invalidate "k" fresh) = EvictionCount fresh + 1
  ∧ removed fresh (Invalidate "k" fresh) = 0
  ∧ Length (Invalidate "k" fresh) = Length fresh.
Proof. vm_compute. repeat split; reflexivity. Qed.

Lemma C8_witness :
  (∀ x, x ∈ [mkCall (after 120) range_keys (OpCleanUp (V := string))]
        → ranges (call_rng x))
  ∧ minInt64 ≤ EvictionCount one_expired
  ∧ EvictionCount one_expired + Z.of_nat 1 * (Length one_expired + Z.of_nat 1 + 2)
    ≤ maxInt64
  ∧ run [mkCall (after 120) range_keys OpCleanUp] one_expired
    = Some (CleanUp (after 120) (range_keys (values one_expired)) one_expired)
  ∧ EvictionCount one_expired
    ≤ EvictionCount (CleanUp (after 120) (range_keys (values one_expired)) one_expired)
  ∧ removed one_expired
      (CleanUp (after 120) (range_keys (values one_expired)) one_expired)
    ≤ EvictionCount (CleanUp (after 120) (range_keys (values one_expired)) one_expired)
      - EvictionCount one_expired.
Proof.
  assert (∀ x, x ∈ [mkCall (after 120) range_keys (OpCleanUp (V := string))]
               → ranges (call_rng x)) as Hr.
  { intros x Hx m. apply elem_of_cons in Hx as [->|Hx].
    - unfold range_order. reflexivity.
    - by apply elem_of_nil in Hx. }
  assert (minInt64 ≤ EvictionCount one_expired) as Hlo by (vm_compute; discriminate).
  assert (EvictionCount one_expired
          + Z.of_nat 1 * (Length one_expired + Z.of_nat 1 + 2) ≤ maxInt64) as Hhi
    by (vm_compute; discriminate).
  assert (run [mkCall (after 120) range_keys OpCleanUp] one_expired
          = Some (CleanUp (after 120) (range_keys (values one_expired)) one_expired))
    as Hrun by reflexivity.
  pose proof (C8_eviction_counter [mkCall (after 120) range_keys OpCleanUp]
                one_expired _ Hr Hlo Hhi Hrun) as (H1 & H2 & _).
  exact (conj Hr (conj Hlo (conj Hhi (conj Hrun (conj H1 H2))))).
Defined.

(** C9, as stated, fails: [SetWeight] of a key the fresh cache does not hold
    puts the key into the weight map alone. *)
Lemma C9_override_of_absent_key :
  same_keys fresh
  ∧ run [mkCall start range_keys (OpSetWeight "k" 7)] fresh
    = Some (SetWeight "k" 7 fresh)
  ∧ weight (SetWeight "k" 7 fresh) !! "k" = Some 7
  ∧ values (SetWeight "k" 7 fresh) !! "k" = None
  ∧ ¬ same_keys (SetWeight "k" 7 fresh).
Proof.
  split; [split; reflexivity|]. split; [reflexivity|].
  split; [reflexivity|]. split; [reflexivity|].
  intros [_ Hw].
  assert ("k" ∈ dom (weight (SetWeight "k" 7 fresh))) as Hin.
  { apply elem_of_dom. by eexists. }
  rewrite Hw in Hin. apply elem_of_dom in Hin as [v Hv]. discriminate.
Qed.

Lemma C9_witness :
  same_keys write5ms
  ∧ no_override_of_absent [mkCall (after 1) range_keys (OpSetWeight "k" 7)] write5ms
  ∧ run [mkCall (after 1) range_keys (OpSetWeight "k" 7)] write5ms
    = Some (SetWeight "k" 7 write5ms)
  ∧ same_keys (SetWeight "k" 7 write5ms).
Proof.
  assert (same_keys write5ms) as Hs by (split; vm_compute; reflexivity).
  assert (no_override_of_absent
            [mkCall (after 1) range_keys (OpSetWeight "k" 7)] write5ms)
    as Hn by (split; [vm_compute; discriminate|intros c1 _; exact I]).
  assert (run [mkCall (after 1) range_keys (OpSetWeight "k" 7)] write5ms
          = Some (SetWeight "k" 7 write5ms)) as Hrun by reflexivity.
  pose proof (C9_same_keys_preserved _ write5ms _ Hs Hn Hrun) as H.
  exact (conj Hs (conj Hn (conj Hrun H))).
Defined.

Lemma C10_witness :
  minInt64 ≤ EvictionCount fresh
  ∧ EvictionCount fresh < maxInt64
  ∧ values fresh !! "k" = None ∧ tstamp fresh !! "k" = None
  ∧ weight fresh !! "k" = None
  ∧ values fresh = ∅ ∧ tstamp fresh = ∅ ∧ weight fresh = ∅
  ∧ range_order (values fresh) []
  ∧ values (Invalidate "k" fresh) = values fresh
  ∧ EvictionCount (Invalidate "k" fresh) = EvictionCount fresh + 1
  ∧ values (CleanUp (after 1) [] fresh) = ∅
  ∧ EvictionCount (CleanUp (after 1) [] fresh) = EvictionCount fresh + 1.
Proof.
  assert (minInt64 ≤ EvictionCount fresh) as Hlo by (vm_compute; discriminate).
  assert (EvictionCount fresh < maxInt64) as Hhi by (vm_compute; reflexivity).
  assert (values fresh !! "k" = None) as Hv by reflexivity.
  assert (tstamp fresh !! "k" = None) as Ht by reflexivity.
  assert (weight fresh !! "k" = None) as Hw by reflexivity.
  assert (values fresh = ∅) as Ev by reflexivity.
  assert (tstamp fresh = ∅) as Et by reflexivity.
  assert (weight fresh = ∅) as Ew by reflexivity.
  assert (range_order (values fresh) []) as Hr
    by (unfold range_order; vm_compute; reflexivity).
  pose proof (C10_noop_removal_counts (after 1) [] "k" fresh Hlo Hhi) as [HI HC].
  destruct (HI Hv Ht Hw) as (I1 & _ & _ & I4).
  destruct (HC Ev Et Ew Hr) as (C1 & _ & _ & C4).
  repeat split; assumption.
Defined.

Lemma C2_witness :
  0 < 5
  ∧ (∀ p, p ∈ scenario_puts → ranges (put_rng p))
  ∧ put_key <$> scenario_puts = ["a"; "b"; "c"; "e"; "f"; "g"]
  ∧ Length (run_puts scenario_puts (NewMaxKeysCache start 5)) ≤ 5
  ∧ Length (run_puts scenario_puts (NewMaxKeysCache start 5)) = 5
  ∧ EvictionCount (run_puts scenario_puts (NewMaxKeysCache start 5)) = 1.
Proof.
  assert (0 < 5) as HN by reflexivity.
  assert (∀ p, p ∈ scenario_puts → ranges (put_rng p)) as Hr.
  { intros p Hp m. unfold scenario_puts in Hp. unfold range_order.
    repeat (apply elem_of_cons in Hp as [->|Hp]); try reflexivity.
    by apply elem_of_nil in Hp. }
  assert (put_key <$> scenario_puts = ["a"; "b"; "c"; "e"; "f"; "g"]) as Hk
    by reflexivity.
  pose proof (C2_max_keys_bound 5 start scenario_puts HN Hr) as [Hb Hs].
  destruct (Hs eq_refl Hk) as (H5 & He & _).
  exact (conj HN (conj Hr (conj Hk (conj Hb (conj H5 He))))).
Defined.

(** * Further properties of the engine *)

Section Reads.
Context {V : Type}.
Implicit Types (c : PowerCache V) (key k j : string) (now : Time)
  (rng : gmap string V → list string).

(** ** GetIfPresent, case by case *)

Lemma GetIfPresent_expired now key c :
  isKeyExpired now key c = true →
  GetIfPresent now key c
  = (set_statReqs (incr64 (statReqs c)) (Invalidate key c), Err ErrNotPresent).
Proof.
  intros He. unfold GetIfPresent. rewrite He. cbv zeta.
  assert (values (set_statReqs (incr64 (statReqs (Invalidate key c))) (Invalidate key c))
          !! key = None) as Hv.
  { unfold Invalidate. pc_simpl. apply lookup_delete_eq. }
  by rewrite Hv.
Qed.

Lemma GetIfPresent_absent now key c :
  isKeyExpired now key c = false → values c !! key = None →
  GetIfPresent now key c = (set_statReqs (incr64 (statReqs c)) c, Err ErrNotPresent).
Proof.
  intros He Hv. unfold GetIfPresent. rewrite He. cbv zeta. pc_simpl. by rewrite Hv.
Qed.

(** The stamp a hit leaves for the key that is read. *)
Lemma GetIfPresent_hit now key c v :
  isKeyExpired now key c = false → values c !! key = Some v →
  (GetIfPresent now key c).2 = Ok v
  ∧ values (GetIfPresent now key c).1 = values c
  ∧ weight (GetIfPresent now key c).1 = weight c
  ∧ tstamp (GetIfPresent now key c).1
    = (if negb (ExpiresAfterAccessDuration c =? emptyDuration)
       then <[key := Time_Add now (ExpiresAfterAccessDuration c)]> (tstamp c)
       else if negb (ExpiresAfterWriteDuration c =? emptyDuration)
       then tstamp c
       else <[key := now]> (tstamp c))
  ∧ policy (GetIfPresent now key c).1 = policy c
  ∧ statReqs (GetIfPresent now key c).1 = incr64 (statReqs c)
  ∧ statHits (GetIfPresent now key c).1 = incr64 (statHits c)
  ∧ statEvictions (GetIfPresent now key c).1 = statEvictions c.
Proof.
  intros He Hv. unfold GetIfPresent. rewrite He. cbv zeta. pc_simpl. rewrite Hv.
  unfold policy.
  destruct (ExpiresAfterWriteDuration c =? emptyDuration) eqn:Ew;
    destruct (ExpiresAfterAccessDuration c =? emptyDuration) eqn:Ea;
    pc_simpl; rewrite ?Ew, ?Ea; pc_simpl; done.
Qed.

Lemma GetIfPresent_result now key c :
  (GetIfPresent now key c).2
  = if isKeyExpired now key c then Err ErrNotPresent
    else match values c !! key with Some v => Ok v | None => Err ErrNotPresent end.
Proof.
  destruct (isKeyExpired now key c) eqn:He.
  - by rewrite GetIfPresent_expired.
  - destruct (values c !! key) as [v|] eqn:Hv.
    + by destruct (GetIfPresent_hit now key c v He Hv) as [-> _].
    + by rewrite GetIfPresent_absent.
Qed.

(** ** What the maintenance pass and Put leave alone *)

Lemma policy_fields c c' :
  policy c' = policy c →
  ExpiresAfterAccessDuration c' = ExpiresAfterAccessDuration c
  ∧ ExpiresAfterWriteDuration c' = ExpiresAfterWriteDuration c
  ∧ PeriodicMaintenance c' = PeriodicMaintenance c
  ∧ MaxKeys c' = MaxKeys c
  ∧ MaxSize c' = MaxSize c.
Proof. unfold policy. by intros [= -> -> -> -> ->]. Qed.

Lemma untouched_fields c c' :
  untouched c' = untouched c →
  ValueLoaderField c' = ValueLoaderField c
  ∧ DefaultValueWeight c' = DefaultValueWeight c
  ∧ statLoadCount c' = statLoadCount c
  ∧ statLoadDur c' = statLoadDur c
  ∧ statHits c' = statHits c
  ∧ statReqs c' = statReqs c.
Proof. unfold untouched. by intros [= -> -> _ _ -> -> -> ->]. Qed.

Lemma CleanUp_loop_untouched now order c a :
  untouched (CleanUp_loop now order c a).1 = untouched c.
Proof.
  revert c a. induction order as [|k rest IH]; intros c a; simpl; [done|].
  destruct (sweepExpired now c k).
  - destruct (bounded _); [done|]. by rewrite IH.
  - destruct (decide _); [by rewrite IH|]. destruct (replaces _ _ _ _); by rewrite IH.
Qed.

Lemma CleanUp_untouched now order c : untouched (CleanUp now order c) = untouched c.
Proof.
  unfold CleanUp. pose proof (CleanUp_loop_untouched now order c no_candidate) as H.
  destruct (CleanUp_loop _ _ _ _) as [c1 a1]. simpl in H. rewrite <- H.
  by destruct (negb _).
Qed.

Lemma cleanUpIfNeccissary_untouched now rng c :
  untouched (cleanUpIfNeccissary now rng c) = untouched c
  ∧ policy (cleanUpIfNeccissary now rng c) = policy c.
Proof.
  unfold cleanUpIfNeccissary.
  destruct (shouldClean now c); [|done].
  split; [apply CleanUp_untouched|apply CleanUp_policy].
Qed.

Lemma Put_locked_untouched now key (value : V) c :
  untouched (Put_locked now key value c) = untouched c.
Proof. unfold Put_locked, untouched. by repeat (case_match; pc_simpl). Qed.

Lemma Put_untouched now rng key (value : V) c :
  untouched (Put now rng key value c) = untouched c.
Proof.
  unfold Put. rewrite Put_locked_untouched.
  apply cleanUpIfNeccissary_untouched.
Qed.

(** What [Put] leaves under its key. *)
Lemma Put_entry now rng key (value : V) c :
  values (Put now rng key value c) !! key = Some value
  ∧ weight (Put now rng key value c) !! key = Some (DefaultValueWeight c)
  ∧ tstamp (Put now rng key value c) !! key
    = Some (if negb (ExpiresAfterAccessDuration c =? emptyDuration)
            then Time_Add now (ExpiresAfterAccessDuration c)
            else if negb (ExpiresAfterWriteDuration c =? emptyDuration)
            then Time_Add now (ExpiresAfterWriteDuration c)
            else now).
Proof.
  destruct (cleanUpIfNeccissary_untouched now rng c) as [Hu Hp].
  unfold Put. rewrite values_Put_locked, weight_Put_locked, tstamp_Put_locked_lookup.
  rewrite !lookup_insert_eq.
  destruct (untouched_fields _ _ Hu) as (_ & -> & _).
  by destruct (policy_fields _ _ Hp) as (-> & -> & _).
Qed.

(** ** Reading back *)

(** X1. A value that was put is read back as long as its stored deadline has not
    passed; without a time policy it is read back at any time.  [Put] also
    gives the key the default weight. *)
Theorem Put_then_GetIfPresent now now' rng key (value : V) c :
  0 ≤ ExpiresAfterAccessDuration c → 0 ≤ ExpiresAfterWriteDuration c →
  (ExpiresAfterAccessDuration c ≠ emptyDuration →
   now' ≤ Time_Add now (ExpiresAfterAccessDuration c)) →
  (ExpiresAfterAccessDuration c = emptyDuration →
   ExpiresAfterWriteDuration c ≠ emptyDuration →
   now' ≤ Time_Add now (ExpiresAfterWriteDuration c)) →
  (GetIfPresent now' key (Put now rng key value c)).2 = Ok value
  ∧ weight (Put now rng key value c) !! key = Some (DefaultValueWeight c).
Proof.
  intros Ha Hw Hna Hnw.
  destruct (Put_entry now rng key value c) as (Hv & Hwt & Ht).
  split; [|done]. rewrite GetIfPresent_result, Hv.
  destruct (isKeyExpired now' key (Put now rng key value c)) eqn:He; [|done].
  exfalso.
  destruct (proj1 (isKeyExpired_spec now' key (Put now rng key value c)) He)
    as (t & Ht' & Hexp).
  pose proof (eq_trans (eq_sym Ht') Ht) as [= ->]. clear Ht'.
  destruct (policy_fields _ _ (policy_Put now rng key value c)) as (Ea & Ew & _).
  rewrite Ea, Ew in Hexp.
  unfold Time_Add, emptyDuration in *.
  destruct (ExpiresAfterAccessDuration c =? 0) eqn:Ea0;
    destruct (ExpiresAfterWriteDuration c =? 0) eqn:Ew0; simpl in Hexp; lia.
Qed.

(** X2. A hit returns the value the cache holds for the key, and the key is
    within its stamp plus each configured duration. *)
Theorem GetIfPresent_hit_sound now key c (v : V) :
  (GetIfPresent now key c).2 = Ok v →
  values c !! key = Some v
  ∧ values (GetIfPresent now key c).1 !! key = Some v
  ∧ ∀ t, tstamp c !! key = Some t →
      (ExpiresAfterAccessDuration c ≠ emptyDuration →
       now ≤ Time_Add t (ExpiresAfterAccessDuration c))
      ∧ (ExpiresAfterWriteDuration c ≠ emptyDuration →
         now ≤ Time_Add t (ExpiresAfterWriteDuration c)).
Proof.
  rewrite GetIfPresent_result.
  destruct (isKeyExpired now key c) eqn:He; [done|].
  destruct (values c !! key) as [v'|] eqn:Hv; [|done]. intros [= ->].
  destruct (GetIfPresent_hit now key c v He Hv) as (_ & -> & _).
  split; [done|]. split; [done|]. intros t Ht.
  assert (¬ ∃ t, tstamp c !! key = Some t
    ∧ ((ExpiresAfterAccessDuration c ≠ emptyDuration
        ∧ t + ExpiresAfterAccessDuration c < now)
       ∨ (ExpiresAfterWriteDuration c ≠ emptyDuration
          ∧ t + ExpiresAfterWriteDuration c < now))) as Hn.
  { rewrite <- isKeyExpired_spec. by rewrite He. }
  unfold Time_Add. split; intros Hd;
    destruct (decide (now ≤ t + ExpiresAfterAccessDuration c));
    destruct (decide (now ≤ t + ExpiresAfterWriteDuration c)); try done;
    exfalso; apply Hn; exists t; (split; [done|]); first [left; split; [done|lia] | right; split; [done|lia]].
Qed.

(** X3. A read of a key whose stamp plus a configured duration lies before now
    misses, deletes the key from the three maps and counts one eviction and
    one request. *)
Theorem GetIfPresent_expired_evicts now key c t :
  tstamp c !! key = Some t →
  (ExpiresAfterAccessDuration c ≠ emptyDuration
   ∧ Time_Add t (ExpiresAfterAccessDuration c) < now)
  ∨ (ExpiresAfterWriteDuration c ≠ emptyDuration
     ∧ Time_Add t (ExpiresAfterWriteDuration c) < now) →
  (GetIfPresent now key c).2 = Err ErrNotPresent
  ∧ values (GetIfPresent now key c).1 !! key = None
  ∧ tstamp (GetIfPresent now key c).1 !! key = None
  ∧ weight (GetIfPresent now key c).1 !! key = None
  ∧ statEvictions (GetIfPresent now key c).1 = incr64 (statEvictions c)
  ∧ statReqs (GetIfPresent now key c).1 = incr64 (statReqs c)
  ∧ statHits (GetIfPresent now key c).1 = statHits c.
Proof.
  intros Ht Hexp.
  assert (isKeyExpired now key c = true) as He.
  { apply isKeyExpired_spec. exists t. split; [done|]. exact Hexp. }
  rewrite (GetIfPresent_expired now key c He). unfold Invalidate. pc_simpl.
  by rewrite !lookup_delete_eq.
Qed.

(** X4. A read changes nothing under another key, whether it hits, misses or
    evicts. *)
Theorem GetIfPresent_other_keys now key j c :
  j ≠ key →
  values (GetIfPresent now key c).1 !! j = values c !! j
  ∧ tstamp (GetIfPresent now key c).1 !! j = tstamp c !! j
  ∧ weight (GetIfPresent now key c).1 !! j = weight c !! j.
Proof.
  intros Hj. destruct (isKeyExpired now key c) eqn:He.
  - rewrite (GetIfPresent_expired now key c He). unfold Invalidate. pc_simpl.
    by rewrite !lookup_delete_ne.
  - destruct (values c !! key) as [v|] eqn:Hv.
    + destruct (GetIfPresent_hit now key c v He Hv) as (_ & -> & -> & -> & _).
      repeat split; try done.
      destruct (negb (ExpiresAfterAccessDuration c =? emptyDuration));
        [by rewrite lookup_insert_ne|].
      destruct (negb (ExpiresAfterWriteDuration c =? emptyDuration));
        [done|by rewrite lookup_insert_ne].
    + by rewrite (GetIfPresent_absent now key c He Hv).
Qed.

(** X5. After [Invalidate] the key is not present, at any time, and the entries
    of the other keys are as before. *)
Theorem Invalidate_then_GetIfPresent now key c :
  (GetIfPresent now key (Invalidate key c)).2 = Err ErrNotPresent
  ∧ ∀ j, j ≠ key →
      values (Invalidate key c) !! j = values c !! j
      ∧ tstamp (Invalidate key c) !! j = tstamp c !! j
      ∧ weight (Invalidate key c) !! j = weight c !! j.
Proof.
  split.
  - rewrite GetIfPresent_result.
    assert (values (Invalidate key c) !! key = None) as ->.
    { unfold Invalidate. pc_simpl. apply lookup_delete_eq. }
    by destruct (isKeyExpired _ _ _).
  - intros j Hj. unfold Invalidate. pc_simpl. by rewrite !lookup_delete_ne.
Qed.

(** X6. After [InvalidateAll] no key is present and the cache is empty. *)
Theorem InvalidateAll_then_GetIfPresent now key c :
  (GetIfPresent now key (InvalidateAll c)).2 = Err ErrNotPresent
  ∧ Length (InvalidateAll c) = 0
  ∧ values (InvalidateAll c) = ∅
  ∧ tstamp (InvalidateAll c) = ∅
  ∧ weight (InvalidateAll c) = ∅.
Proof.
  split.
  - rewrite GetIfPresent_result.
    assert (values (InvalidateAll c) !! key = None) as -> by done.
    by destruct (isKeyExpired _ _ _).
  - unfold Length, InvalidateAll. pc_simpl. by rewrite map_size_empty.
Qed.

End Reads.

Section Loads.
Context {V : Type}.
Implicit Types (c : PowerCache V) (key k j : string) (now : Time)
  (rng : gmap string V → list string).

(** ** Expiry and reads *)

(** X7. Under access-expiry a hit moves the deadline of the key to now plus the
    duration, and a read up to that deadline hits again: reads spaced by no
    more than the duration keep a key alive. *)
Theorem access_expiry_keep_alive now now' key c (v : V) :
  ExpiresAfterAccessDuration c ≠ emptyDuration →
  0 ≤ ExpiresAfterAccessDuration c → 0 ≤ ExpiresAfterWriteDuration c →
  (GetIfPresent now key c).2 = Ok v →
  now' ≤ Time_Add now (ExpiresAfterAccessDuration c) →
  tstamp (GetIfPresent now key c).1 !! key
  = Some (Time_Add now (ExpiresAfterAccessDuration c))
  ∧ (GetIfPresent now' key (GetIfPresent now key c).1).2 = Ok v.
Proof.
  intros Hne Ha Hw Hhit Hnow'. rewrite GetIfPresent_result in Hhit.
  destruct (isKeyExpired now key c) eqn:He; [done|].
  destruct (values c !! key) as [v'|] eqn:Hv; [|done]. injection Hhit as ->.
  destruct (GetIfPresent_hit now key c v He Hv) as (_ & Hv1 & _ & Ht1 & Hp1 & _).
  assert ((ExpiresAfterAccessDuration c =? emptyDuration) = false) as Ea
    by (unfold emptyDuration in *; lia).
  rewrite Ea in Ht1. simpl in Ht1.
  set (c1 := (GetIfPresent now key c).1) in *. clearbody c1.
  assert (tstamp c1 !! key = Some (Time_Add now (ExpiresAfterAccessDuration c))) as Ht.
  { rewrite Ht1. apply lookup_insert_eq. }
  split; [done|]. rewrite GetIfPresent_result, Hv1, Hv.
  destruct (isKeyExpired now' key c1) eqn:He1; [|done]. exfalso.
  destruct (proj1 (isKeyExpired_spec now' key c1) He1) as (t & Ht' & Hexp).
  pose proof (eq_trans (eq_sym Ht') Ht) as [= ->]. clear Ht'.
  destruct (policy_fields _ _ Hp1) as (Ea1 & Ew1 & _). rewrite Ea1, Ew1 in Hexp.
  unfold Time_Add, emptyDuration in *. lia.
Qed.

(** X8. Under write-expiry alone reads never make or move a stamp: whatever
    keys are read and when, a stamp found afterwards is the one that was
    there before. *)
Theorem write_expiry_reads_keep_stamps (cs : list (call V)) c c' :
  ExpiresAfterAccessDuration c = emptyDuration →
  ExpiresAfterWriteDuration c ≠ emptyDuration →
  Forall (λ x, ∃ key, call_op x = OpGetIfPresent key) cs →
  run cs c = Some c' →
  ∀ k t, tstamp c' !! k = Some t → tstamp c !! k = Some t.
Proof.
  intros Ha Hw Hall. revert c Ha Hw.
  induction Hall as [|x cs [key Hx] _ IH]; intros c Ha Hw; simpl.
  { by intros [= <-]. }
  unfold exec_call at 1. rewrite Hx. simpl. intros Hrun k t Ht.
  assert (policy (GetIfPresent (call_now x) key c).1 = policy c
          ∧ ∀ k t, tstamp (GetIfPresent (call_now x) key c).1 !! k = Some t
                   → tstamp c !! k = Some t) as [Hp Hst].
  { destruct (isKeyExpired (call_now x) key c) eqn:He.
    - rewrite (GetIfPresent_expired _ key c He). unfold Invalidate. split; [done|].
      pc_simpl. intros k' t'. rewrite lookup_delete_Some. by intros [_ ?].
    - destruct (values c !! key) as [v|] eqn:Hv.
      + destruct (GetIfPresent_hit _ key c v He Hv) as (_ & _ & _ & -> & -> & _).
        split; [done|].
        assert ((ExpiresAfterAccessDuration c =? emptyDuration) = true) as ->
          by (unfold emptyDuration in *; lia).
        assert ((ExpiresAfterWriteDuration c =? emptyDuration) = false) as ->
          by (unfold emptyDuration in *; lia).
        done.
      + by rewrite (GetIfPresent_absent _ key c He Hv). }
  destruct (policy_fields _ _ Hp) as (Ea1 & Ew1 & _).
  apply Hst. eapply IH; [by rewrite Ea1|by rewrite Ew1|exact Hrun|exact Ht].
Qed.

(** ** The request and hit counters *)

Lemma GetIfPresent_reads now key c :
  statReqs (GetIfPresent now key c).1 = incr64 (statReqs c)
  ∧ (statHits (GetIfPresent now key c).1 = statHits c
     ∨ statHits (GetIfPresent now key c).1 = incr64 (statHits c))
  ∧ statLoadCount (GetIfPresent now key c).1 = statLoadCount c
  ∧ statLoadDur (GetIfPresent now key c).1 = statLoadDur c
  ∧ ValueLoaderField (GetIfPresent now key c).1 = ValueLoaderField c
  ∧ DefaultValueWeight (GetIfPresent now key c).1 = DefaultValueWeight c.
Proof.
  destruct (isKeyExpired now key c) eqn:He.
  - rewrite (GetIfPresent_expired now key c He). unfold Invalidate. pc_simpl. tauto.
  - destruct (values c !! key) as [v|] eqn:Hv.
    + unfold GetIfPresent. rewrite He. cbv zeta. pc_simpl. rewrite Hv.
      destruct (_ && _); [pc_simpl; tauto|]. destruct (negb _); pc_simpl; tauto.
    + rewrite (GetIfPresent_absent now key c He Hv). pc_simpl. tauto.
Qed.

Lemma loadWithValueLoader_reads now rng key vl c c' r :
  loadWithValueLoader now rng key vl c = Some (c', r) →
  statReqs c' = statReqs c ∧ statHits c' = statHits c.
Proof.
  unfold loadWithValueLoader. destruct vl as [f|]; [|done].
  destruct (f key) as [v d|e]; [|by intros [= <- _]].
  destruct (_ =? 0); [done|]. intros [= <- _].
  set (c1 := set_statLoad _ _ c).
  destruct (untouched_fields _ _ (Put_untouched (Time_Add now d) rng key v c1))
    as (_ & _ & _ & _ & -> & ->). done.
Qed.

Lemma GetWithValueLoader_reads now rng key vl c c' r :
  GetWithValueLoader now rng key vl c = Some (c', r) →
  statReqs c' = incr64 (statReqs c)
  ∧ (statHits c' = statHits c ∨ statHits c' = incr64 (statHits c)).
Proof.
  unfold GetWithValueLoader.
  destruct (GetIfPresent_reads now key c) as (Hr & Hh & _).
  destruct (GetIfPresent now key c) as [c1 [v|e]]; simpl in *.
  - by intros [= <- _].
  - intros Hl. destruct (loadWithValueLoader_reads _ _ _ _ _ _ _ Hl) as [-> ->]. done.
Qed.

Lemma exec_reads now rng (o : op V) c c' :
  exec now rng o c = Some c' →
  (statReqs c' = statReqs c ∧ statHits c' = statHits c)
  ∨ (statReqs c' = incr64 (statReqs c)
     ∧ (statHits c' = statHits c ∨ statHits c' = incr64 (statHits c))).
Proof.
  destruct o; simpl.
  - intros [= <-]. left.
    by destruct (untouched_fields _ _ (Put_untouched now rng key value c))
      as (_ & _ & _ & _ & -> & ->).
  - intros [= <-]. right. destruct (GetIfPresent_reads now key c) as (? & ? & _). done.
  - destruct (GetWithValueLoader _ _ _ _ _) as [[c1 r]|] eqn:E; [|done].
    intros [= <-]. right. by eapply GetWithValueLoader_reads.
  - unfold Get. destruct (GetWithValueLoader _ _ _ _ _) as [[c1 r]|] eqn:E; [|done].
    intros [= <-]. right. by eapply GetWithValueLoader_reads.
  - unfold Load. destruct (GetWithValueLoader _ _ _ _ _) as [[c1 r]|] eqn:E; [|done].
    intros [= <-]. right. by eapply GetWithValueLoader_reads.
  - unfold Refresh. destruct (loadWithValueLoader _ _ _ _ _) as [[c1 r]|] eqn:E; [|done].
    intros [= <-]. left. by eapply loadWithValueLoader_reads.
  - intros [= <-]. by left.
  - intros [= <-]. by left.
  - intros [= <-]. left.
    by destruct (untouched_fields _ _ (CleanUp_untouched now (rng (values c)) c))
      as (_ & _ & _ & _ & -> & ->).
  - intros [= <-]. by left.
  - intros [= <-]. by left.
  - intros [= <-]. by left.
Qed.

(** X9. While the request counter stays within int64, the hit counter never
    exceeds it, over any sequence of calls, and every call adds at most one
    request. *)
Theorem hits_le_requests (cs : list (call V)) c c' :
  0 ≤ statHits c → statHits c ≤ statReqs c →
  statReqs c + Z.of_nat (length cs) ≤ maxInt64 →
  run cs c = Some c' →
  0 ≤ statHits c' ∧ statHits c' ≤ statReqs c'
  ∧ statHits c ≤ statHits c'
  ∧ statReqs c ≤ statReqs c' ≤ statReqs c + Z.of_nat (length cs).
Proof.
  revert c. induction cs as [|x cs IH]; intros c H0 Hle Hmax; simpl.
  { intros [= <-]. lia. }
  destruct (exec_call x c) as [c1|] eqn:Hex; [|done]. intros Hrun.
  simpl length in Hmax. rewrite Nat2Z.inj_succ in Hmax.
  assert (0 ≤ statHits c1 ∧ statHits c1 ≤ statReqs c1 ∧ statHits c ≤ statHits c1
          ∧ statReqs c ≤ statReqs c1 ≤ statReqs c + 1) as (A & B & C & D).
  { destruct (exec_reads _ _ _ _ _ Hex) as [[-> ->]|[-> Hh]]; [lia|].
    rewrite incr64_succ by (unfold minInt64; lia).
    destruct Hh as [->| ->]; [lia|].
    rewrite incr64_succ by (unfold minInt64; lia). lia. }
  destruct (IH c1) as (E & F & G & I); [lia..|done|]. lia.
Qed.

(** ** Loads *)

(** X10. On a hit the loader is not called: the result is that of the lookup
    whatever the loader is, a nil one included. *)
Theorem GetWithValueLoader_hit now rng key vl c (v : V) :
  (GetIfPresent now key c).2 = Ok v →
  GetWithValueLoader now rng key vl c = Some ((GetIfPresent now key c).1, Ok v)
  ∧ Get now rng key c = Some ((GetIfPresent now key c).1, Ok v)
  ∧ Load now rng key c = Some ((GetIfPresent now key c).1, Ok v).
Proof.
  intros Hhit. unfold Get, Load, GetWithValueLoader.
  destruct (GetIfPresent now key c) as [c1 [v'|e]]; simpl in *; [|done].
  by injection Hhit as ->.
Qed.

(** X11. On a miss a loader that returns a value makes [GetWithValueLoader]
    return it and store it under the key, with the default weight; one load
    and one request are counted and no hit. *)
Theorem GetWithValueLoader_loads now rng key (f : ValueLoader V) c v d :
  (GetIfPresent now key c).2 = Err ErrNotPresent →
  f key = Loaded v d →
  incr64 (statLoadCount c) ≠ 0 →
  ∃ c', GetWithValueLoader now rng key (Some f) c = Some (c', Ok v)
    ∧ values c' !! key = Some v
    ∧ weight c' !! key = Some (DefaultValueWeight c)
    ∧ statLoadCount c' = incr64 (statLoadCount c)
    ∧ statReqs c' = incr64 (statReqs c)
    ∧ statHits c' = statHits c.
Proof.
  intros Hmiss Hf Hn. unfold GetWithValueLoader.
  destruct (GetIfPresent_reads now key c) as (Hr & Hh & Hlc & _ & _ & Hdw).
  assert (statHits (GetIfPresent now key c).1 = statHits c) as Hh'.
  { rewrite GetIfPresent_result in Hmiss.
    destruct (isKeyExpired now key c) eqn:He.
    - by rewrite (GetIfPresent_expired now key c He).
    - destruct (values c !! key) eqn:Hv; [done|].
      by rewrite (GetIfPresent_absent now key c He Hv). }
  destruct (GetIfPresent now key c) as [c1 [v'|e]]; simpl in *; [done|].
  unfold loadWithValueLoader. rewrite Hf, Hlc.
  destruct (incr64 (statLoadCount c) =? 0) eqn:E; [lia|].
  set (c2 := set_statLoad _ _ c1). eexists. split; [done|].
  destruct (Put_entry (Time_Add now d) rng key v c2) as (-> & -> & _).
  destruct (untouched_fields _ _ (Put_untouched (Time_Add now d) rng key v c2))
    as (_ & _ & -> & _ & -> & ->).
  unfold c2. pc_simpl. by rewrite Hdw, Hr, Hh'.
Qed.

(** X12. Without a loader, [Get] and [Load] of a key that is not present panic,
    and [Refresh] panics for every key. *)
Theorem nil_loader_panics now rng key c :
  ValueLoaderField c = None →
  Refresh now rng key c = None
  ∧ ((GetIfPresent now key c).2 = Err ErrNotPresent →
     Get now rng key c = None ∧ Load now rng key c = None).
Proof.
  intros Hnil. split.
  - unfold Refresh, loadWithValueLoader. by rewrite Hnil.
  - intros Hmiss. unfold Get, Load, GetWithValueLoader. rewrite Hnil.
    destruct (GetIfPresent now key c) as [c1 [v|e]]; simpl in *; done.
Qed.

(** X13. [Refresh] does not look the key up.  When the loader fails the cache is
    left exactly as it was, the old value included; when it returns a value,
    the value replaces whatever the key held, and neither a request nor a
    hit is counted. *)
Theorem Refresh_reloads now rng key (f : ValueLoader V) c :
  ValueLoaderField c = Some f →
  (∀ e, f key = Failed e → Refresh now rng key c = Some c)
  ∧ (∀ v d, f key = Loaded v d → incr64 (statLoadCount c) ≠ 0 →
     ∃ c', Refresh now rng key c = Some c'
       ∧ values c' !! key = Some v
       ∧ statLoadCount c' = incr64 (statLoadCount c)
       ∧ statReqs c' = statReqs c ∧ statHits c' = statHits c).
Proof.
  intros Hf. unfold Refresh, loadWithValueLoader. rewrite Hf. split.
  - by intros e ->.
  - intros v d -> Hn.
    destruct (incr64 (statLoadCount c) =? 0) eqn:E; [lia|].
    set (c2 := set_statLoad _ _ c).
    exists (Put (Time_Add now d) rng key v c2). split; [reflexivity|].
    destruct (Put_entry (Time_Add now d) rng key v c2) as (-> & _).
    by destruct (untouched_fields _ _ (Put_untouched (Time_Add now d) rng key v c2))
      as (_ & _ & -> & _ & -> & ->).
Qed.

(** X14. The load statistic after a load that took [d]: the old statistic plus
    [d], divided by the new load count.  From the second load on it is at
    most the larger of the two; it is not the mean of the load times. *)
Theorem AverageLoadPenalty_recurrence now rng key (f : ValueLoader V) c c' r v d :
  f key = Loaded v d →
  0 ≤ statLoadCount c → statLoadCount c < maxInt64 →
  0 ≤ AverageLoadPenalty c → 0 ≤ d → AverageLoadPenalty c + d ≤ maxInt64 →
  loadWithValueLoader now rng key (Some f) c = Some (c', r) →
  AverageLoadPenalty c' = (AverageLoadPenalty c + d) / (statLoadCount c + 1)
  ∧ 0 ≤ AverageLoadPenalty c'
  ∧ (1 ≤ statLoadCount c → AverageLoadPenalty c' ≤ Z.max (AverageLoadPenalty c) d)
  ∧ (statLoadCount c = 0 → AverageLoadPenalty c' = AverageLoadPenalty c + d).
Proof.
  unfold AverageLoadPenalty. intros Hf Hc0 Hc1 Ha Hd Hsum.
  unfold loadWithValueLoader. rewrite Hf.
  rewrite (incr64_succ (statLoadCount c)) by (unfold minInt64; lia).
  destruct (statLoadCount c + 1 =? 0) eqn:E; [lia|]. intros [= <- _].
  set (c2 := set_statLoad _ _ c).
  destruct (untouched_fields _ _ (Put_untouched (Time_Add now d) rng key v c2))
    as (_ & _ & _ & -> & _).
  unfold c2. pc_simpl.
  rewrite (wrap64_id (statLoadDur c + d))
    by (unfold int64_range, minInt64, maxInt64 in *; lia).
  rewrite Z.quot_div_nonneg by lia.
  assert (0 ≤ (statLoadDur c + d) / (statLoadCount c + 1) ≤ statLoadDur c + d) as Hq.
  { split; [apply Z.div_pos; lia|]. apply Z.div_le_upper_bound; nia. }
  rewrite wrap64_id by (unfold int64_range, minInt64, maxInt64 in *; lia).
  split; [done|]. split; [lia|]. split.
  - intros H1. apply Z.div_le_upper_bound; [lia|].
    pose proof (Z.le_max_l (statLoadDur c) d). pose proof (Z.le_max_r (statLoadDur c) d).
    nia.
  - intros ->. simpl. by rewrite Z.div_1_r.
Qed.

End Loads.

Section Passes.
Context {V : Type}.
Implicit Types (c : PowerCache V) (key k j : string) (now : Time)
  (rng : gmap string V → list string) (a : candidate).

(** ** What the loop of CleanUp does to each key *)

(** A key keeps its three entries, or it is one of the enumerated keys and
    has lost all three. *)
Lemma CleanUp_loop_entries now order c a j :
  (values (CleanUp_loop now order c a).1 !! j = values c !! j
   ∧ tstamp (CleanUp_loop now order c a).1 !! j = tstamp c !! j
   ∧ weight (CleanUp_loop now order c a).1 !! j = weight c !! j)
  ∨ (j ∈ order
     ∧ values (CleanUp_loop now order c a).1 !! j = None
     ∧ tstamp (CleanUp_loop now order c a).1 !! j = None
     ∧ weight (CleanUp_loop now order c a).1 !! j = None).
Proof.
  revert c a. induction order as [|k rest IH]; intros c a; simpl; [by left|].
  assert (∀ a', (values (CleanUp_loop now rest c a').1 !! j = values c !! j
                 ∧ tstamp (CleanUp_loop now rest c a').1 !! j = tstamp c !! j
                 ∧ weight (CleanUp_loop now rest c a').1 !! j = weight c !! j)
                ∨ (j ∈ k :: rest
                   ∧ values (CleanUp_loop now rest c a').1 !! j = None
                   ∧ tstamp (CleanUp_loop now rest c a').1 !! j = None
                   ∧ weight (CleanUp_loop now rest c a').1 !! j = None)) as Hsame.
  { intros a'. destruct (IH c a') as [?|(? & ?)]; [by left|right].
    split; [by right|done]. }
  destruct (sweepExpired now c k); [|destruct (decide _); [apply Hsame|];
    destruct (replaces _ _ _ _); apply Hsame].
  set (c' := set_statEvictions _ _).
  assert (values c' = delete k (values c) ∧ tstamp c' = delete k (tstamp c)
          ∧ weight c' = delete k (weight c)) as (Hv & Ht & Hw) by done.
  assert ((values c' !! j = values c !! j ∧ tstamp c' !! j = tstamp c !! j
           ∧ weight c' !! j = weight c !! j)
          ∨ (j ∈ k :: rest ∧ values c' !! j = None ∧ tstamp c' !! j = None
             ∧ weight c' !! j = None)) as Hstep.
  { rewrite Hv, Ht, Hw. destruct (decide (j = k)) as [->|Hne].
    - right. rewrite !lookup_delete_eq. split; [by left|done].
    - left. by rewrite !lookup_delete_ne. }
  clearbody c'. destruct (bounded c'); [exact Hstep|].
  destruct (IH c' a) as [(E1 & E2 & E3)|(Hin & ?)].
  - rewrite E1, E2, E3. exact Hstep.
  - right. split; [by right|done].
Qed.

(** The candidate the loop ends on is the one it started with, or one of
    the enumerated keys, which then still has its value. *)
Lemma CleanUp_loop_candidate now order c a :
  NoDup order →
  aKey (CleanUp_loop now order c a).2 = aKey a
  ∨ (aKey (CleanUp_loop now order c a).2 ∈ order
     ∧ values (CleanUp_loop now order c a).1 !! aKey (CleanUp_loop now order c a).2
       = values c !! aKey (CleanUp_loop now order c a).2).
Proof.
  intros Hnd. revert c a.
  induction Hnd as [|k rest Hk Hnd IH]; intros c a; simpl; [by left|].
  assert (aKey (CleanUp_loop now rest c (candidate_of c k)).2 ∈ k :: rest
          ∧ values (CleanUp_loop now rest c (candidate_of c k)).1
              !! aKey (CleanUp_loop now rest c (candidate_of c k)).2
            = values c !! aKey (CleanUp_loop now rest c (candidate_of c k)).2) as Hnew.
  { destruct (IH c (candidate_of c k)) as [Heq|[Hin Hv]].
    - rewrite Heq. simpl. split; [by left|].
      destruct (CleanUp_loop_entries now rest c (candidate_of c k) k)
        as [(? & _)|(? & _)]; done.
    - split; [by right|done]. }
  destruct (sweepExpired now c k).
  - set (c' := set_statEvictions _ _).
    assert (values c' = delete k (values c)) as Hv by done. clearbody c'.
    destruct (bounded c'); [by left|].
    destruct (IH c' a) as [?|[Hin Hv']]; [by left|right].
    split; [by right|]. rewrite Hv', Hv. apply lookup_delete_ne. by intros ->.
  - destruct (decide _); [by right|]. destruct (replaces _ _ _ _); [by right|].
    destruct (IH c a) as [?|[Hin Hv']]; [by left|right]. split; [by right|done].
Qed.

(** Over a non-empty enumeration of keys that have values, the loop removes
    a key or ends on a candidate that has a value. *)
Lemma CleanUp_loop_progress now order c :
  NoDup order → (∀ k, k ∈ order → is_Some (values c !! k)) → order ≠ [] →
  Length (CleanUp_loop now order c no_candidate).1 < Length c
  ∨ is_Some (values (CleanUp_loop now order c no_candidate).1
               !! aKey (CleanUp_loop now order c no_candidate).2).
Proof.
  intros Hnd Hin Hne. destruct order as [|k rest]; [done|]. simpl.
  apply NoDup_cons in Hnd as [Hk Hnd].
  destruct (sweepExpired now c k).
  - left. set (c' := set_statEvictions _ _).
    assert (Length c' < Length c) as Hlt.
    { unfold Length, c'. pc_simpl. rewrite map_size_delete_Some by (apply Hin; by left).
      assert (size (values c) ≠ 0%nat); [|lia].
      intros Hz. apply map_size_empty_inv in Hz.
      destruct (Hin k) as [x Hx]; [by left|]. by rewrite Hz in Hx. }
    clearbody c'. destruct (bounded c'); [done|].
    pose proof (Length_CleanUp_loop now rest c' no_candidate). lia.
  - right. simpl.
    destruct (CleanUp_loop_candidate now rest c (candidate_of c k) Hnd) as [Heq|[Hr Hv]].
    + rewrite Heq. simpl.
      destruct (CleanUp_loop_entries now rest c (candidate_of c k) k)
        as [(-> & _)|(? & _)]; [|done]. apply Hin. by left.
    + rewrite Hv. apply Hin. by right.
Qed.

Lemma CleanUp_loop_bounded now order c a :
  bounded c = true → Length c - 1 ≤ Length (CleanUp_loop now order c a).1.
Proof.
  intros Hb. revert a. induction order as [|k rest IH]; intros a; simpl; [lia|].
  destruct (sweepExpired now c k).
  - set (c' := set_statEvictions _ _).
    assert (bounded c' = true) as -> by done.
    unfold Length, c'. pc_simpl. rewrite map_size_delete.
    destruct (values c !! k); simpl; lia.
  - destruct (decide _); [apply IH|]. destruct (replaces _ _ _ _); apply IH.
Qed.

(** ** A pass makes room *)

Lemma Length_CleanUp_lt now order c :
  range_order (values c) order → 0 < Length c →
  Length (CleanUp now order c) < Length c.
Proof.
  intros Hr Hpos.
  - assert (order ≠ []) as Hne.
    { intros ->. apply range_order_length in Hr. unfold Length in Hpos.
      simpl in Hr. lia. }
    assert (NoDup order) as Hnd.
    { unfold range_order in Hr. rewrite Hr. apply NoDup_fst_map_to_list. }
    assert (∀ k, k ∈ order → is_Some (values c !! k)) as Hin.
    { intros k. by apply range_order_dom. }
    pose proof (CleanUp_loop_progress now order c Hnd Hin Hne) as Hprog.
    pose proof (Length_CleanUp_loop now order c no_candidate) as Hle.
    unfold CleanUp. destruct (CleanUp_loop _ _ _ _) as [c1 a1]. simpl in *.
    assert (Length (delete_key (aKey a1) c1) < Length c) as Hlt.
    { unfold Length in *. pc_simpl. rewrite map_size_delete.
      destruct Hprog as [?|[x Hx]]; [destruct (values c1 !! aKey a1); simpl; lia|].
      rewrite Hx. simpl. assert (size (values c1) ≠ 0%nat); [|lia].
      intros Hz. apply map_size_empty_inv in Hz. by rewrite Hz in Hx. }
    by destruct (negb _).
Qed.

(** A key keeps its three entries through a pass, or loses the three. *)
Lemma CleanUp_entries now order c j :
  (values (CleanUp now order c) !! j = values c !! j
   ∧ tstamp (CleanUp now order c) !! j = tstamp c !! j
   ∧ weight (CleanUp now order c) !! j = weight c !! j)
  ∨ (values (CleanUp now order c) !! j = None
     ∧ tstamp (CleanUp now order c) !! j = None
     ∧ weight (CleanUp now order c) !! j = None).
Proof.
  pose proof (CleanUp_loop_entries now order c no_candidate j) as Hent.
  unfold CleanUp. destruct (CleanUp_loop _ _ _ _) as [c1 a1]. simpl in Hent.
  assert ((delete (aKey a1) (values c1) !! j = values c !! j
           ∧ delete (aKey a1) (tstamp c1) !! j = tstamp c !! j
           ∧ delete (aKey a1) (weight c1) !! j = weight c !! j)
          ∨ (delete (aKey a1) (values c1) !! j = None
             ∧ delete (aKey a1) (tstamp c1) !! j = None
             ∧ delete (aKey a1) (weight c1) !! j = None)) as Hgoal.
  { destruct (decide (j = aKey a1)) as [->|Hne].
    - right. by rewrite !lookup_delete_eq.
    - rewrite !lookup_delete_ne by done.
      destruct Hent as [?|(_ & ?)]; [by left|by right]. }
  destruct (negb _); pc_simpl; exact Hgoal.
Qed.

(** X15. A pass over a cache that is not empty removes at least one key, whatever
    the policies; it removes exactly one when no time policy is configured,
    and at most two when a bound is configured. *)
Theorem CleanUp_makes_room now order c :
  range_order (values c) order → 0 < Length c →
  Length (CleanUp now order c) < Length c
  ∧ (bounded c = true → Length c - 2 ≤ Length (CleanUp now order c))
  ∧ (timePolicy c = false → Length (CleanUp now order c) = Length c - 1).
Proof.
  intros Hr Hpos. split; [by apply Length_CleanUp_lt|split].
  - intros Hb. pose proof (CleanUp_loop_bounded now order c no_candidate Hb) as Hlo.
    unfold CleanUp. destruct (CleanUp_loop _ _ _ _) as [c1 a1]. simpl in *.
    assert (Length c1 - 1 ≤ Length (delete_key (aKey a1) c1)) as Hd.
    { unfold Length. pc_simpl. rewrite map_size_delete.
      destruct (values c1 !! aKey a1); simpl; lia. }
    destruct (negb _); unfold Length in *; pc_simpl; lia.
  - intros Hp. by apply Length_CleanUp_no_timePolicy.
Qed.

(** ** The key-count bound under any mix of policies *)

Lemma Length_Put_capped N now rng key (value : V) c :
  MaxKeys c = N → 0 < N → ranges rng → Length c ≤ N →
  Length (Put now rng key value c) ≤ N.
Proof.
  intros HN Hpos Hr Hle. unfold Put, cleanUpIfNeccissary.
  pose proof (Length_nonneg c) as H0.
  destruct (shouldClean now c) eqn:Hs.
  - pose proof (Length_Put_locked now key value (CleanUp now (rng (values c)) c)).
    destruct (decide (Length c = 0)) as [Hz|Hnz].
    + pose proof (Length_CleanUp now (rng (values c)) c). lia.
    + pose proof (Length_CleanUp_lt now (rng (values c)) c (Hr _)). lia.
  - pose proof (Length_Put_locked now key value c).
    unfold shouldClean in Hs. rewrite HN in Hs.
    destruct (N =? 0) eqn:E0; [lia|]. simpl in Hs.
    destruct (N <=? Length c) eqn:E1; [|lia].
    rewrite orb_true_r in Hs. done.
Qed.

Lemma GetIfPresent_policy_Length now key c :
  policy (GetIfPresent now key c).1 = policy c
  ∧ Length (GetIfPresent now key c).1 ≤ Length c.
Proof.
  destruct (isKeyExpired now key c) eqn:He.
  - rewrite (GetIfPresent_expired now key c He). split; [done|].
    apply (Length_delete_key key c).
  - destruct (values c !! key) as [v|] eqn:Hv.
    + destruct (GetIfPresent_hit now key c v He Hv) as (_ & Hv' & _ & _ & Hp & _).
      split; [done|]. unfold Length. by rewrite Hv'.
    + by rewrite (GetIfPresent_absent now key c He Hv).
Qed.

Lemma loadWithValueLoader_capped N now rng key vl c c' r :
  loadWithValueLoader now rng key vl c = Some (c', r) →
  policy c' = policy c
  ∧ (MaxKeys c = N → 0 < N → ranges rng → Length c ≤ N → Length c' ≤ N).
Proof.
  unfold loadWithValueLoader. destruct vl as [f|]; [|done].
  destruct (f key) as [v d|e]; [|by intros [= <- _]].
  destruct (_ =? 0); [done|]. intros [= <- _].
  set (c1 := set_statLoad _ _ c). split; [apply (policy_Put _ rng key v c1)|].
  intros HN Hpos Hr Hle. by apply (Length_Put_capped N _ rng key v c1).
Qed.

Lemma GetWithValueLoader_capped N now rng key vl c c' r :
  GetWithValueLoader now rng key vl c = Some (c', r) →
  policy c' = policy c
  ∧ (MaxKeys c = N → 0 < N → ranges rng → Length c ≤ N → Length c' ≤ N).
Proof.
  unfold GetWithValueLoader.
  destruct (GetIfPresent_policy_Length now key c) as [Hp Hl].
  destruct (GetIfPresent now key c) as [c1 [v|e]]; simpl in *.
  - intros [= <- _]. split; [done|]. lia.
  - intros Hload.
    destruct (loadWithValueLoader_capped N _ _ _ _ _ _ _ Hload) as [Hp' Hl'].
    split; [congruence|]. intros HN Hpos Hr Hle. apply Hl'; [|done..|lia].
    destruct (policy_fields _ _ Hp) as (_ & _ & _ & -> & _). done.
Qed.

Lemma exec_capped N now rng (o : op V) c c' :
  exec now rng o c = Some c' →
  policy c' = policy c
  ∧ (MaxKeys c = N → 0 < N → ranges rng → Length c ≤ N → Length c' ≤ N).
Proof.
  pose proof (Length_nonneg c) as H0. destruct o; simpl.
  - intros [= <-]. split; [apply policy_Put|]. intros. by apply (Length_Put_capped N).
  - intros [= <-]. destruct (GetIfPresent_policy_Length now key c). split; [done|]. lia.
  - destruct (GetWithValueLoader _ _ _ _ _) as [[c1 r]|] eqn:E; [|done].
    intros [= <-]. by eapply GetWithValueLoader_capped.
  - unfold Get. destruct (GetWithValueLoader _ _ _ _ _) as [[c1 r]|] eqn:E; [|done].
    intros [= <-]. by eapply GetWithValueLoader_capped.
  - unfold Load. destruct (GetWithValueLoader _ _ _ _ _) as [[c1 r]|] eqn:E; [|done].
    intros [= <-]. by eapply GetWithValueLoader_capped.
  - unfold Refresh. destruct (loadWithValueLoader _ _ _ _ _) as [[c1 r]|] eqn:E; [|done].
    intros [= <-]. by eapply loadWithValueLoader_capped.
  - intros [= <-]. split; [done|]. pose proof (Length_delete_key key c).
    unfold Invalidate, Length in *. pc_simpl. lia.
  - intros [= <-]. split; [done|]. unfold InvalidateAll, Length. pc_simpl.
    rewrite map_size_empty. lia.
  - intros [= <-]. split; [apply CleanUp_policy|].
    pose proof (Length_CleanUp now (rng (values c)) c). lia.
  - intros [= <-]. split; [done|]. unfold SetExpiresAt, Length. pc_simpl. lia.
  - intros [= <-]. split; [done|]. unfold SetExpiresIn, Length. pc_simpl. lia.
  - intros [= <-]. split; [done|]. unfold SetWeight, Length. pc_simpl. lia.
Qed.

(** X16. With a key-count bound [N], whatever else is configured (expiry,
    size bound, periodic maintenance), no sequence of calls takes a cache
    of at most [N] keys beyond [N] keys, and none changes the policy. *)
Theorem MaxKeys_bound_any_policy (N : Z) (cs : list (call V)) c c' :
  MaxKeys c = N → 0 < N → Length c ≤ N →
  (∀ x, x ∈ cs → ranges (call_rng x)) →
  run cs c = Some c' →
  Length c' ≤ N ∧ policy c' = policy c.
Proof.
  intros HN Hpos. revert c HN.
  induction cs as [|x cs IH]; intros c HN Hle Hr; simpl.
  { by intros [= <-]. }
  destruct (exec_call x c) as [c1|] eqn:Hex; [|done]. intros Hrun.
  destruct (exec_capped N _ _ _ _ _ Hex) as [Hp Hl].
  destruct (policy_fields _ _ Hp) as (_ & _ & _ & HN1 & _).
  destruct (IH c1) as [Hl' Hp']; [congruence| | |done|].
  - apply Hl; [done..| |done]. apply Hr. by left.
  - intros y Hy. apply Hr. by right.
  - split; [done|congruence].
Qed.

(** ** The sweep without a bound *)



End Passes.

Section Entries.
Context {V : Type}.
Implicit Types (c : PowerCache V) (key k j : string) (now : Time)
  (rng : gmap string V → list string).

(** ** Entries are kept whole or evicted whole *)

(** X18. A pass never alters an entry: every key keeps its value, stamp and
    weight, or loses the three of them.  Of the other fields the pass writes
    the eviction counter and the time of the next pass only. *)
Theorem CleanUp_keeps_or_evicts now order c j :
  ((values (CleanUp now order c) !! j = values c !! j
    ∧ tstamp (CleanUp now order c) !! j = tstamp c !! j
    ∧ weight (CleanUp now order c) !! j = weight c !! j)
   ∨ (values (CleanUp now order c) !! j = None
      ∧ tstamp (CleanUp now order c) !! j = None
      ∧ weight (CleanUp now order c) !! j = None))
  ∧ untouched (CleanUp now order c) = untouched c
  ∧ policy (CleanUp now order c) = policy c.
Proof.
  split; [apply CleanUp_entries|].
  split; [apply CleanUp_untouched|apply CleanUp_policy].
Qed.

Lemma Put_locked_other now key j (value : V) c :
  j ≠ key →
  values (Put_locked now key value c) !! j = values c !! j
  ∧ tstamp (Put_locked now key value c) !! j = tstamp c !! j
  ∧ weight (Put_locked now key value c) !! j = weight c !! j.
Proof.
  intros Hj. rewrite values_Put_locked, weight_Put_locked.
  rewrite !lookup_insert_ne by done. repeat split; try done.
  destruct (ExpiresAfterWriteDuration c =? emptyDuration) eqn:Ew;
    destruct (ExpiresAfterAccessDuration c =? emptyDuration) eqn:Ea;
    unfold Put_locked; repeat (pc_simpl; rewrite ?Ew, ?Ea);
    by rewrite ?lookup_insert_ne.
Qed.

(** X19. [Put] never alters the entry of another key: it leaves it as it was or,
    when a pass is due, may evict it whole.  When no pass is due every other
    entry is as it was. *)
Theorem Put_other_keys now rng key j (value : V) c :
  j ≠ key →
  ((values (Put now rng key value c) !! j = values c !! j
    ∧ tstamp (Put now rng key value c) !! j = tstamp c !! j
    ∧ weight (Put now rng key value c) !! j = weight c !! j)
   ∨ (shouldClean now c = true
      ∧ values (Put now rng key value c) !! j = None
      ∧ tstamp (Put now rng key value c) !! j = None
      ∧ weight (Put now rng key value c) !! j = None)).
Proof.
  intros Hj. unfold Put, cleanUpIfNeccissary.
  destruct (shouldClean now c).
  - destruct (Put_locked_other now key j value (CleanUp now (rng (values c)) c) Hj)
      as (-> & -> & ->).
    destruct (CleanUp_entries now (rng (values c)) c j) as [?|?];
      [by left|by right].
  - left. by apply Put_locked_other.
Qed.

(** ** The per-key overrides and reads *)

(** X20. After [SetExpiresAt] a key that has a value is read back up to the given
    instant, and a read after that instant plus a configured duration misses.
    [SetExpiresIn] is [SetExpiresAt] at now plus the given duration. *)
Theorem SetExpiresAt_governs_reads now key (t : Time) c (v : V) :
  values c !! key = Some v →
  0 ≤ ExpiresAfterAccessDuration c → 0 ≤ ExpiresAfterWriteDuration c →
  (now ≤ t → (GetIfPresent now key (SetExpiresAt key t c)).2 = Ok v)
  ∧ ((ExpiresAfterAccessDuration c ≠ emptyDuration
      ∧ Time_Add t (ExpiresAfterAccessDuration c) < now)
     ∨ (ExpiresAfterWriteDuration c ≠ emptyDuration
        ∧ Time_Add t (ExpiresAfterWriteDuration c) < now) →
     (GetIfPresent now key (SetExpiresAt key t c)).2 = Err ErrNotPresent)
  ∧ (∀ now0 d, SetExpiresIn now0 key d c = SetExpiresAt key (Time_Add now0 d) c).
Proof.
  intros Hv Ha Hw.
  assert (tstamp (SetExpiresAt key t c) !! key = Some t) as Ht.
  { unfold SetExpiresAt. pc_simpl. apply lookup_insert_eq. }
  split; [|split; [|done]].
  - intros Hle. rewrite GetIfPresent_result.
    assert (values (SetExpiresAt key t c) !! key = Some v) as -> by done.
    destruct (isKeyExpired now key (SetExpiresAt key t c)) eqn:He; [|done].
    exfalso.
    destruct (proj1 (isKeyExpired_spec now key (SetExpiresAt key t c)) He)
      as (t' & Ht' & Hexp).
    pose proof (eq_trans (eq_sym Ht') Ht) as [= ->]. clear Ht'.
    unfold SetExpiresAt in Hexp. pc_simpl. unfold emptyDuration in *. lia.
  - intros Hexp.
    assert (isKeyExpired now key (SetExpiresAt key t c) = true) as He.
    { apply isKeyExpired_spec. exists t. split; [done|]. exact Hexp. }
    by rewrite (GetIfPresent_expired now key _ He).
Qed.

(** X21. [SetWeight] is invisible to reads, and a later [Put] of the key discards
    the weight that was set. *)
Theorem SetWeight_then_Put now now' rng key k (w : Z) (value : V) c :
  (GetIfPresent now k (SetWeight key w c)).2 = (GetIfPresent now k c).2
  ∧ weight (SetWeight key w c) !! key = Some w
  ∧ weight (Put now' rng key value (SetWeight key w c)) !! key
    = Some (DefaultValueWeight c).
Proof.
  split; [|split].
  - rewrite !GetIfPresent_result. done.
  - unfold SetWeight. pc_simpl. apply lookup_insert_eq.
  - by destruct (Put_entry now' rng key value (SetWeight key w c)) as (_ & -> & _).
Qed.

End Entries.

Section Weights.
Context {V : Type}.
Implicit Types (c : PowerCache V) (key k j : string) (now : Time)
  (rng : gmap string V → list string).

(** ** Weights *)

Lemma GetIfPresent_weight now key c k w :
  weight (GetIfPresent now key c).1 !! k = Some w → weight c !! k = Some w.
Proof.
  destruct (isKeyExpired now key c) eqn:He.
  - rewrite (GetIfPresent_expired now key c He). unfold Invalidate. pc_simpl.
    rewrite lookup_delete_Some. by intros [_ ?].
  - destruct (values c !! key) as [v|] eqn:Hv.
    + by destruct (GetIfPresent_hit now key c v He Hv) as (_ & _ & -> & _).
    + by rewrite (GetIfPresent_absent now key c He Hv).
Qed.

Lemma Put_weight now rng key (value : V) c k w :
  weight (Put now rng key value c) !! k = Some w →
  weight c !! k = Some w ∨ w = DefaultValueWeight c.
Proof.
  destruct (decide (k = key)) as [->|Hne].
  - destruct (Put_entry now rng key value c) as (_ & -> & _). intros [= <-]. by right.
  - unfold Put, cleanUpIfNeccissary.
    destruct (shouldClean now c).
    + destruct (Put_locked_other now key k value (CleanUp now (rng (values c)) c) Hne)
        as (_ & _ & ->).
      destruct (CleanUp_entries now (rng (values c)) c k)
        as [(_ & _ & ->)|(_ & _ & ->)]; [by left|done].
    + destruct (Put_locked_other now key k value c Hne) as (_ & _ & ->). by left.
Qed.

Lemma loadWithValueLoader_weight now rng key vl c c' r :
  loadWithValueLoader now rng key vl c = Some (c', r) →
  DefaultValueWeight c' = DefaultValueWeight c
  ∧ ∀ k w, weight c' !! k = Some w → weight c !! k = Some w ∨ w = DefaultValueWeight c.
Proof.
  unfold loadWithValueLoader. destruct vl as [f|]; [|done].
  destruct (f key) as [v d|e]; [|intros [= <- _]; split; [done|by left]].
  destruct (_ =? 0); [done|]. intros [= <- _].
  set (c1 := set_statLoad _ _ c). split.
  - by destruct (untouched_fields _ _ (Put_untouched (Time_Add now d) rng key v c1))
      as (_ & -> & _).
  - intros k w. apply (Put_weight _ rng key v c1).
Qed.

Lemma GetWithValueLoader_weight now rng key vl c c' r :
  GetWithValueLoader now rng key vl c = Some (c', r) →
  DefaultValueWeight c' = DefaultValueWeight c
  ∧ ∀ k w, weight c' !! k = Some w → weight c !! k = Some w ∨ w = DefaultValueWeight c.
Proof.
  unfold GetWithValueLoader.
  destruct (GetIfPresent_reads now key c) as (_ & _ & _ & _ & _ & Hd).
  pose proof (GetIfPresent_weight now key c) as Hw.
  destruct (GetIfPresent now key c) as [c1 [v|e]]; simpl in *.
  - intros [= <- _]. split; [done|]. intros k w ?. left. by apply Hw.
  - intros Hl. destruct (loadWithValueLoader_weight _ _ _ _ _ _ _ Hl) as [Hd' Hw'].
    split; [congruence|]. intros k w Hk.
    destruct (Hw' k w Hk) as [?|?]; [left; by apply Hw|right; congruence].
Qed.

Lemma exec_weight now rng (o : op V) c c' :
  ¬ sets_weight o → exec now rng o c = Some c' →
  DefaultValueWeight c' = DefaultValueWeight c
  ∧ ∀ k w, weight c' !! k = Some w → weight c !! k = Some w ∨ w = DefaultValueWeight c.
Proof.
  intros Hno. destruct o; simpl in *.
  - intros [= <-]. split; [|intros k w; apply Put_weight].
    by destruct (untouched_fields _ _ (Put_untouched now rng key value c)) as (_ & -> & _).
  - intros [= <-]. destruct (GetIfPresent_reads now key c) as (_ & _ & _ & _ & _ & Hd).
    split; [done|]. intros k w ?. left. by eapply GetIfPresent_weight.
  - destruct (GetWithValueLoader _ _ _ _ _) as [[c1 r]|] eqn:E; [|done].
    intros [= <-]. by eapply GetWithValueLoader_weight.
  - unfold Get. destruct (GetWithValueLoader _ _ _ _ _) as [[c1 r]|] eqn:E; [|done].
    intros [= <-]. by eapply GetWithValueLoader_weight.
  - unfold Load. destruct (GetWithValueLoader _ _ _ _ _) as [[c1 r]|] eqn:E; [|done].
    intros [= <-]. by eapply GetWithValueLoader_weight.
  - unfold Refresh. destruct (loadWithValueLoader _ _ _ _ _) as [[c1 r]|] eqn:E; [|done].
    intros [= <-]. by eapply loadWithValueLoader_weight.
  - intros [= <-]. split; [done|]. intros k w. unfold Invalidate. pc_simpl.
    rewrite lookup_delete_Some. intros [_ ?]. by left.
  - intros [= <-]. split; [done|]. intros k w. unfold InvalidateAll. pc_simpl.
    by rewrite lookup_empty.
  - intros [= <-]. split.
    + by destruct (untouched_fields _ _ (CleanUp_untouched now (rng (values c)) c))
        as (_ & -> & _).
    + intros k w Hk.
      destruct (CleanUp_entries now (rng (values c)) c k)
        as [(_ & _ & E)|(_ & _ & E)]; rewrite E in Hk; [by left|done].
  - intros [= <-]. split; [done|]. intros k w ?. by left.
  - intros [= <-]. split; [done|]. intros k w ?. by left.
  - done.
Qed.

(** X22. From a cache in which every weight is the default weight, as
    [Initialize] leaves it with a default weight that is not zero, every
    sequence of calls without [SetWeight] ends in such a cache, with the
    same default weight. *)
Theorem weights_stay_default (cs : list (call V)) c c' :
  default_weights c →
  Forall (λ x, ¬ sets_weight (call_op x)) cs →
  run cs c = Some c' →
  default_weights c'
  ∧ DefaultValueWeight c' = DefaultValueWeight c
  ∧ (∀ now c0, default_weights (Initialize now c0)
               ∧ DefaultValueWeight (Initialize now c0) ≠ 0).
Proof.
  intros Hd Hall Hrun. split; [|split].
  - revert c Hd Hrun. induction Hall as [|x cs Hx _ IH]; intros c Hd; simpl.
    { by intros [= <-]. }
    destruct (exec_call x c) as [c1|] eqn:Hex; [|done]. intros Hrun.
    destruct (exec_weight _ _ _ _ _ Hx Hex) as [Hdw Hw].
    apply (IH c1); [|done]. intros k w Hk.
    destruct (Hw k w Hk) as [?|?]; [rewrite Hdw; by eapply Hd|congruence].
  - revert c Hd Hrun. induction Hall as [|x cs Hx _ IH]; intros c Hd; simpl.
    { by intros [= <-]. }
    destruct (exec_call x c) as [c1|] eqn:Hex; [|done]. intros Hrun.
    destruct (exec_weight _ _ _ _ _ Hx Hex) as [Hdw Hw].
    rewrite <- Hdw. apply (IH c1); [|done]. intros k w Hk.
    destruct (Hw k w Hk) as [?|?]; [rewrite Hdw; by eapply Hd|congruence].
  - intros now c0.
    assert (weight (Initialize now c0) = ∅) as Hw.
    { unfold Initialize. by repeat (case_match; pc_simpl). }
    split; [intros k w; by rewrite Hw, lookup_empty|].
    unfold Initialize. cbv zeta. pc_simpl.
    destruct (DefaultValueWeight c0 =? 0) eqn:E0; repeat (case_match; pc_simpl); lia.
Qed.

End Weights.

(** * The further properties on concrete caches *)

Lemma Put_then_GetIfPresent_witness :
  0 ≤ ExpiresAfterAccessDuration (cache_of 0 100 0 0)
  ∧ 0 ≤ ExpiresAfterWriteDuration (cache_of 0 100 0 0)
  ∧ (GetIfPresent (after 50) "a" (Put (after 10) range_keys "a" "a" (cache_of 0 100 0 0))).2
    = Ok "a".
Proof.
  assert (0 ≤ ExpiresAfterAccessDuration (cache_of 0 100 0 0)) as Ha
    by (vm_compute; discriminate).
  assert (0 ≤ ExpiresAfterWriteDuration (cache_of 0 100 0 0)) as Hw
    by (vm_compute; discriminate).
  assert (ExpiresAfterAccessDuration (cache_of 0 100 0 0) ≠ emptyDuration →
          after 50 ≤ Time_Add (after 10) (ExpiresAfterAccessDuration (cache_of 0 100 0 0)))
    as Hna by (intros H; exfalso; apply H; reflexivity).
  assert (ExpiresAfterAccessDuration (cache_of 0 100 0 0) = emptyDuration →
          ExpiresAfterWriteDuration (cache_of 0 100 0 0) ≠ emptyDuration →
          after 50 ≤ Time_Add (after 10) (ExpiresAfterWriteDuration (cache_of 0 100 0 0)))
    as Hnw by (intros _ _; vm_compute; discriminate).
  pose proof (Put_then_GetIfPresent (after 10) (after 50) range_keys "a" "a"
                (cache_of 0 100 0 0) Ha Hw Hna Hnw) as [H _].
  exact (conj Ha (conj Hw H)).
Defined.

Lemma GetIfPresent_hit_sound_witness :
  (GetIfPresent (after 1) "k" write5ms).2 = Ok "v"
  ∧ values write5ms !! "k" = Some "v".
Proof.
  assert ((GetIfPresent (after 1) "k" write5ms).2 = Ok "v") as Hhit
    by (vm_compute; reflexivity).
  pose proof (GetIfPresent_hit_sound (after 1) "k" write5ms "v" Hhit) as [H _].
  exact (conj Hhit H).
Defined.

Lemma GetIfPresent_expired_evicts_witness :
  tstamp stale !! "k" = Some (after 5)
  ∧ ((ExpiresAfterAccessDuration stale ≠ emptyDuration
      ∧ Time_Add (after 5) (ExpiresAfterAccessDuration stale) < after 20)
     ∨ (ExpiresAfterWriteDuration stale ≠ emptyDuration
        ∧ Time_Add (after 5) (ExpiresAfterWriteDuration stale) < after 20))
  ∧ (GetIfPresent (after 20) "k" stale).2 = Err ErrNotPresent.
Proof.
  assert (tstamp stale !! "k" = Some (after 5)) as Ht by (vm_compute; reflexivity).
  assert ((ExpiresAfterAccessDuration stale ≠ emptyDuration
           ∧ Time_Add (after 5) (ExpiresAfterAccessDuration stale) < after 20)
          ∨ (ExpiresAfterWriteDuration stale ≠ emptyDuration
             ∧ Time_Add (after 5) (ExpiresAfterWriteDuration stale) < after 20)) as Hexp
    by (right; split; vm_compute; [discriminate|reflexivity]).
  pose proof (GetIfPresent_expired_evicts (after 20) "k" stale (after 5) Ht Hexp)
    as [H _].
  exact (conj Ht (conj Hexp H)).
Defined.

Lemma GetIfPresent_other_keys_witness :
  "b" ≠ "a"
  ∧ values (GetIfPresent (after 60) "a" two_live_access).1 !! "b"
    = values two_live_access !! "b"
  ∧ tstamp (GetIfPresent (after 60) "a" two_live_access).1 !! "b"
    = tstamp two_live_access !! "b".
Proof.
  assert ("b" ≠ "a") as Hne by discriminate.
  pose proof (GetIfPresent_other_keys (after 60) "a" "b" two_live_access Hne)
    as (H1 & H2 & _).
  exact (conj Hne (conj H1 H2)).
Defined.

Lemma access_expiry_keep_alive_witness :
  ExpiresAfterAccessDuration two_live_access ≠ emptyDuration
  ∧ 0 ≤ ExpiresAfterAccessDuration two_live_access
  ∧ 0 ≤ ExpiresAfterWriteDuration two_live_access
  ∧ (GetIfPresent (after 100) "a" two_live_access).2 = Ok "a"
  ∧ after 200 ≤ Time_Add (after 100) (ExpiresAfterAccessDuration two_live_access)
  ∧ (GetIfPresent (after 200) "a" (GetIfPresent (after 100) "a" two_live_access).1).2
    = Ok "a".
Proof.
  assert (ExpiresAfterAccessDuration two_live_access ≠ emptyDuration) as Hne
    by (vm_compute; discriminate).
  assert (0 ≤ ExpiresAfterAccessDuration two_live_access) as Ha
    by (vm_compute; discriminate).
  assert (0 ≤ ExpiresAfterWriteDuration two_live_access) as Hw
    by (vm_compute; discriminate).
  assert ((GetIfPresent (after 100) "a" two_live_access).2 = Ok "a") as Hhit
    by (vm_compute; reflexivity).
  assert (after 200 ≤ Time_Add (after 100) (ExpiresAfterAccessDuration two_live_access))
    as Hle by (vm_compute; discriminate).
  pose proof (access_expiry_keep_alive (after 100) (after 200) "a" two_live_access "a"
                Hne Ha Hw Hhit Hle) as [_ H].
  exact (conj Hne (conj Ha (conj Hw (conj Hhit (conj Hle H))))).
Defined.

Lemma write_expiry_reads_keep_stamps_witness :
  ExpiresAfterAccessDuration two_live_write = emptyDuration
  ∧ ExpiresAfterWriteDuration two_live_write ≠ emptyDuration
  ∧ Forall (λ x, ∃ key, call_op x = OpGetIfPresent (V := string) key)
      [mkCall (after 60) range_keys (OpGetIfPresent "a")]
  ∧ run [mkCall (after 60) range_keys (OpGetIfPresent "a")] two_live_write
    = Some (GetIfPresent (after 60) "a" two_live_write).1
  ∧ (tstamp (GetIfPresent (after 60) "a" two_live_write).1 !! "a" = Some (after 110)
     → tstamp two_live_write !! "a" = Some (after 110)).
Proof.
  assert (ExpiresAfterAccessDuration two_live_write = emptyDuration) as Ha
    by reflexivity.
  assert (ExpiresAfterWriteDuration two_live_write ≠ emptyDuration) as Hw
    by (vm_compute; discriminate).
  assert (Forall (λ x, ∃ key, call_op x = OpGetIfPresent (V := string) key)
            [mkCall (after 60) range_keys (OpGetIfPresent "a")]) as Hall
    by (constructor; [by exists "a"|constructor]).
  assert (run [mkCall (after 60) range_keys (OpGetIfPresent "a")] two_live_write
          = Some (GetIfPresent (after 60) "a" two_live_write).1) as Hrun
    by reflexivity.
  pose proof (write_expiry_reads_keep_stamps _ two_live_write _ Ha Hw Hall Hrun
                "a" (after 110)) as H.
  exact (conj Ha (conj Hw (conj Hall (conj Hrun H)))).
Defined.

Lemma hits_le_requests_witness :
  0 ≤ statHits write5ms
  ∧ statHits write5ms ≤ statReqs write5ms
  ∧ statReqs write5ms + Z.of_nat 1 ≤ maxInt64
  ∧ run [mkCall (after 1) range_keys (OpGetIfPresent "k")] write5ms
    = Some (GetIfPresent (after 1) "k" write5ms).1
  ∧ statHits (GetIfPresent (after 1) "k" write5ms).1
    ≤ statReqs (GetIfPresent (after 1) "k" write5ms).1.
Proof.
  assert (0 ≤ statHits write5ms) as H0 by (vm_compute; discriminate).
  assert (statHits write5ms ≤ statReqs write5ms) as Hle by (vm_compute; discriminate).
  assert (statReqs write5ms + Z.of_nat 1 ≤ maxInt64) as Hmax
    by (vm_compute; discriminate).
  assert (run [mkCall (after 1) range_keys (OpGetIfPresent "k")] write5ms
          = Some (GetIfPresent (after 1) "k" write5ms).1) as Hrun by reflexivity.
  pose proof (hits_le_requests [mkCall (after 1) range_keys (OpGetIfPresent "k")]
                write5ms _ H0 Hle Hmax Hrun) as (_ & H & _).
  exact (conj H0 (conj Hle (conj Hmax (conj Hrun H)))).
Defined.

Lemma GetWithValueLoader_hit_witness :
  (GetIfPresent (after 1) "k" write5ms).2 = Ok "v"
  ∧ GetWithValueLoader (after 1) range_keys "k" None write5ms
    = Some ((GetIfPresent (after 1) "k" write5ms).1, Ok "v").
Proof.
  assert ((GetIfPresent (after 1) "k" write5ms).2 = Ok "v") as Hhit
    by (vm_compute; reflexivity).
  pose proof (GetWithValueLoader_hit (after 1) range_keys "k" None write5ms "v" Hhit)
    as [H _].
  exact (conj Hhit H).
Defined.

Lemma GetWithValueLoader_loads_witness :
  (GetIfPresent (after 1) "k" fresh).2 = Err ErrNotPresent
  ∧ loader3 "k" = Loaded "v" 3
  ∧ incr64 (statLoadCount fresh) ≠ 0
  ∧ ∃ c', GetWithValueLoader (after 1) range_keys "k" (Some loader3) fresh
          = Some (c', Ok "v")
      ∧ values c' !! "k" = Some "v".
Proof.
  assert ((GetIfPresent (after 1) "k" fresh).2 = Err ErrNotPresent) as Hmiss
    by (vm_compute; reflexivity).
  assert (loader3 "k" = Loaded "v" 3) as Hf by reflexivity.
  assert (incr64 (statLoadCount fresh) ≠ 0) as Hn by (vm_compute; discriminate).
  destruct (GetWithValueLoader_loads (after 1) range_keys "k" loader3 fresh "v" 3
              Hmiss Hf Hn) as (c' & H1 & H2 & _).
  exact (conj Hmiss (conj Hf (conj Hn (ex_intro _ c' (conj H1 H2))))).
Defined.

Lemma nil_loader_panics_witness :
  ValueLoaderField fresh = None
  ∧ (GetIfPresent (after 1) "k" fresh).2 = Err ErrNotPresent
  ∧ Refresh (after 1) range_keys "k" fresh = None
  ∧ Get (after 1) range_keys "k" fresh = None.
Proof.
  assert (ValueLoaderField fresh = None) as Hnil by reflexivity.
  assert ((GetIfPresent (after 1) "k" fresh).2 = Err ErrNotPresent) as Hmiss
    by (vm_compute; reflexivity).
  pose proof (nil_loader_panics (after 1) range_keys "k" fresh Hnil) as [H1 H2].
  destruct (H2 Hmiss) as [H3 _].
  exact (conj Hnil (conj Hmiss (conj H1 H3))).
Defined.

Lemma Refresh_reloads_witness :
  ValueLoaderField loading = Some loader3
  ∧ loader3 "k" = Loaded "v" 3
  ∧ incr64 (statLoadCount loading) ≠ 0
  ∧ ∃ c', Refresh (after 1) range_keys "k" loading = Some c'
      ∧ values c' !! "k" = Some "v".
Proof.
  assert (ValueLoaderField loading = Some loader3) as Hf by reflexivity.
  assert (loader3 "k" = Loaded "v" 3) as Hl by reflexivity.
  assert (incr64 (statLoadCount loading) ≠ 0) as Hn by (vm_compute; discriminate).
  pose proof (Refresh_reloads (after 1) range_keys "k" loader3 loading Hf) as [_ H].
  destruct (H "v" 3 Hl Hn) as (c' & H1 & H2 & _).
  exact (conj Hf (conj Hl (conj Hn (ex_intro _ c' (conj H1 H2))))).
Defined.

Lemma AverageLoadPenalty_recurrence_witness :
  loader3 "k" = Loaded "v" 3
  ∧ 0 ≤ statLoadCount loading ∧ statLoadCount loading < maxInt64
  ∧ 0 ≤ AverageLoadPenalty loading ∧ 0 ≤ 3
  ∧ AverageLoadPenalty loading + 3 ≤ maxInt64
  ∧ loadWithValueLoader (after 1) range_keys "k" (Some loader3) loading
    = Some (Put (Time_Add (after 1) 3) range_keys "k" "v"
              (set_statLoad 1 3 loading), Ok "v")
  ∧ AverageLoadPenalty
      (Put (Time_Add (after 1) 3) range_keys "k" "v" (set_statLoad 1 3 loading))
    = (AverageLoadPenalty loading + 3) / (statLoadCount loading + 1).
Proof.
  assert (loader3 "k" = Loaded "v" 3) as Hl by reflexivity.
  assert (0 ≤ statLoadCount loading) as Hc0 by (vm_compute; discriminate).
  assert (statLoadCount loading < maxInt64) as Hc1 by (vm_compute; reflexivity).
  assert (0 ≤ AverageLoadPenalty loading) as Ha by (vm_compute; discriminate).
  assert (0 ≤ 3) as Hd by (vm_compute; discriminate).
  assert (AverageLoadPenalty loading + 3 ≤ maxInt64) as Hs by (vm_compute; discriminate).
  assert (loadWithValueLoader (after 1) range_keys "k" (Some loader3) loading
          = Some (Put (Time_Add (after 1) 3) range_keys "k" "v"
                    (set_statLoad 1 3 loading), Ok "v")) as Hload
    by reflexivity.
  pose proof (AverageLoadPenalty_recurrence (after 1) range_keys "k" loader3 loading
                _ _ "v" 3 Hl Hc0 Hc1 Ha Hd Hs Hload) as [H _].
  exact (conj Hl (conj Hc0 (conj Hc1 (conj Ha (conj Hd (conj Hs (conj Hload H))))))).
Defined.

Lemma CleanUp_makes_room_witness :
  range_order (values one_expired) (range_keys (values one_expired))
  ∧ 0 < Length one_expired
  ∧ Length (CleanUp (after 120) (range_keys (values one_expired)) one_expired)
    < Length one_expired.
Proof.
  assert (range_order (values one_expired) (range_keys (values one_expired))) as Hr
    by (unfold range_order, range_keys; reflexivity).
  assert (0 < Length one_expired) as Hpos by (vm_compute; reflexivity).
  pose proof (CleanUp_makes_room (after 120) _ one_expired Hr Hpos) as [H _].
  exact (conj Hr (conj Hpos H)).
Defined.

Lemma MaxKeys_bound_any_policy_witness :
  MaxKeys one_expired = 5
  ∧ 0 < 5
  ∧ Length one_expired ≤ 5
  ∧ (∀ x, x ∈ [mkCall (after 60) range_keys (OpPut "c" "c")] → ranges (call_rng x))
  ∧ run [mkCall (after 60) range_keys (OpPut "c" "c")] one_expired
    = Some (Put (after 60) range_keys "c" "c" one_expired)
  ∧ Length (Put (after 60) range_keys "c" "c" one_expired) ≤ 5.
Proof.
  assert (MaxKeys one_expired = 5) as HN by reflexivity.
  assert (0 < 5) as Hpos by reflexivity.
  assert (Length one_expired ≤ 5) as Hle by (vm_compute; discriminate).
  assert (∀ x, x ∈ [mkCall (after 60) range_keys (OpPut "c" "c")]
               → ranges (call_rng x)) as Hr.
  { intros x Hx m. apply elem_of_cons in Hx as [->|Hx].
    - unfold range_order. reflexivity.
    - by apply elem_of_nil in Hx. }
  assert (run [mkCall (after 60) range_keys (OpPut "c" "c")] one_expired
          = Some (Put (after 60) range_keys "c" "c" one_expired)) as Hrun
    by reflexivity.
  pose proof (MaxKeys_bound_any_policy 5 _ one_expired _ HN Hpos Hle Hr Hrun) as [H _].
  exact (conj HN (conj Hpos (conj Hle (conj Hr (conj Hrun H))))).
Defined.


Lemma Put_other_keys_witness :
  "a" ≠ "c"
  ∧ ((values (Put (after 60) range_keys "c" "c" two_live_write) !! "a"
      = values two_live_write !! "a"
      ∧ tstamp (Put (after 60) range_keys "c" "c" two_live_write) !! "a"
        = tstamp two_live_write !! "a"
      ∧ weight (Put (after 60) range_keys "c" "c" two_live_write) !! "a"
        = weight two_live_write !! "a")
     ∨ (shouldClean (after 60) two_live_write = true
        ∧ values (Put (after 60) range_keys "c" "c" two_live_write) !! "a" = None
        ∧ tstamp (Put (after 60) range_keys "c" "c" two_live_write) !! "a" = None
        ∧ weight (Put (after 60) range_keys "c" "c" two_live_write) !! "a" = None)).
Proof.
  assert ("a" ≠ "c") as Hne by discriminate.
  pose proof (Put_other_keys (after 60) range_keys "c" "a" "c" two_live_write Hne) as H.
  exact (conj Hne H).
Defined.

Lemma SetExpiresAt_governs_reads_witness :
  values write5ms !! "k" = Some "v"
  ∧ 0 ≤ ExpiresAfterAccessDuration write5ms
  ∧ 0 ≤ ExpiresAfterWriteDuration write5ms
  ∧ (after 7 ≤ after 9
     → (GetIfPresent (after 7) "k" (SetExpiresAt "k" (after 9) write5ms)).2 = Ok "v").
Proof.
  assert (values write5ms !! "k" = Some "v") as Hv by (vm_compute; reflexivity).
  assert (0 ≤ ExpiresAfterAccessDuration write5ms) as Ha by (vm_compute; discriminate).
  assert (0 ≤ ExpiresAfterWriteDuration write5ms) as Hw by (vm_compute; discriminate).
  pose proof (SetExpiresAt_governs_reads (after 7) "k" (after 9) write5ms "v" Hv Ha Hw)
    as [H _].
  exact (conj Hv (conj Ha (conj Hw H))).
Defined.

Lemma weights_stay_default_witness :
  default_weights fresh
  ∧ Forall (λ x, ¬ sets_weight (call_op x))
      [mkCall (after 1) range_keys (OpPut "k" "v")]
  ∧ run [mkCall (after 1) range_keys (OpPut "k" "v")] fresh
    = Some (Put (after 1) range_keys "k" "v" fresh)
  ∧ default_weights (Put (after 1) range_keys "k" "v" fresh).
Proof.
  assert (default_weights fresh) as Hd by (intros k w Hk; discriminate Hk).
  assert (Forall (λ x, ¬ sets_weight (call_op x))
            [mkCall (after 1) range_keys (OpPut "k" "v")]) as Hall
    by (constructor; [intros []|constructor]).
  assert (run [mkCall (after 1) range_keys (OpPut "k" "v")] fresh
          = Some (Put (after 1) range_keys "k" "v" fresh)) as Hrun by reflexivity.
  pose proof (weights_stay_default _ fresh _ Hd Hall Hrun) as [H _].
  exact (conj Hd (conj Hall (conj Hrun H))).
Defined.
